(** * The entity/component storage engine of [ecs_s.hpp]

    A shallow embedding of [framework::sparse_set<T>] and
    [framework::registry], followed by the properties of the storage
    engine.

    Conventions of the embedding.
    - [entity], [component_id] and [std::size_t] are 64-bit unsigned
      integers; they are modelled in [N] and every increment or
      decrement that can wrap is written with its [mod 2^64].
    - A [std::vector] is a [list]; [v[i]] is [vec_at v i], which is
      [None] out of range (undefined behaviour in C++).
    - A throwing or undefined call is a constructor of [outcome]. *)

From stdpp Require Import gmap strings list fin_maps.

Local Open Scope N_scope.

(** ** Machine integers and vectors *)

(** [2^64], the modulus of [std::uint64_t] and [std::size_t]. *)
Definition word : N := 18446744073709551616.

(** [static_cast<std::size_t>(-1)], the "absent" mark of a sparse slot. *)
Definition npos : N := 18446744073709551615.

(** [sparse_set::max_capacity]. *)
Definition max_capacity : N := 1000000.

(** [v.size()]. *)
Definition vec_size {A} (v : list A) : N := N.of_nat (length v).

(** [v[i]]: the element, or [None] where the subscript is out of range. *)
Definition vec_at {A} (v : list A) (i : N) : option A :=
  if i <? vec_size v then v !! N.to_nat i else None.

(** [v[i] = x]: the updated vector, or [None] out of range. *)
Definition vec_set {A} (v : list A) (i : N) (x : A) : option (list A) :=
  if i <? vec_size v then Some (<[N.to_nat i := x]> v) else None.

(** The three ways a call can end: it returns [a] in state [s], it throws
    [std::out_of_range] leaving state [s], or its behaviour is undefined. *)
Inductive outcome (S A : Type) : Type :=
| Ok (a : A) (s : S)
| Raise (s : S)
| Undefined.
Arguments Ok {S A} a s.
Arguments Raise {S A} s.
Arguments Undefined {S A}.

(** ** [sparse_set<T>] *)

Section SparseSet.

(** The payload type [T]. *)
Context {V : Type}.

(** [sparse_set<T>::storage]: a payload and the entity that owns it. *)
Record storage : Type := Storage { index : N; payload : V }.

Record sparse_set : Type := SparseSet {
  sparse_ : list N;        (* entity -> dense index, or npos *)
  dense_ : list storage;   (* packed payloads and their entities *)
  n : N                    (* number of valid entries, in [0, n) *)
}.

(** [sparse_set()]: 1024 absent sparse slots, nothing stored. *)
Definition sparse_set_new : sparse_set :=
  {| sparse_ := replicate 1024 npos; dense_ := []; n := 0 |}.

Definition size (s : sparse_set) : N := n s.

(** [grow_sparse_to(index)]. The new size is the larger of twice the
    current size and [index + 1]; the throw comes before the resize. *)
Definition grow_sparse_to (e : N) (s : sparse_set) : outcome sparse_set unit :=
  if vec_size (sparse_ s) <=? e then
    let want := (e + 1) mod word in
    let new_size := N.max ((vec_size (sparse_ s) * 2) mod word) want in
    if max_capacity <? new_size then Raise s
    else Ok tt {| sparse_ := resize (N.to_nat new_size) npos (sparse_ s);
                  dense_ := dense_ s; n := n s |}
  else Ok tt s.

(** [has(index)], with the short-circuit order of the source. The read of
    [dense_[sparse_[index]]] is in range whenever [n <= dense_.size()],
    which the class invariant [sparse_set_wf] states; out of range it is
    taken as a mismatch. *)
Definition has (s : sparse_set) (e : N) : bool :=
  match vec_at (sparse_ s) e with
  | None => false
  | Some i =>
      if i =? npos then false
      else if i <? n s then
        match vec_at (dense_ s) i with
        | Some d => index d =? e
        | None => false
        end
      else false
  end.

(** [operator[](index)]: [dense_[sparse_[index]].payload], without any
    check; [None] where a subscript is out of range. *)
Definition operator_index (s : sparse_set) (e : N) : option V :=
  i ← vec_at (sparse_ s) e;
  d ← vec_at (dense_ s) i;
  Some (payload d).

(** [emplace(index, args...)]; [v] is the payload built from [args]. *)
Definition emplace (e : N) (v : V) (s : sparse_set) : outcome sparse_set unit :=
  match grow_sparse_to e s with
  | Ok _ s1 =>
      if has s1 e then
        (* dense_[sparse_[index]].payload = v *)
        match i ← vec_at (sparse_ s1) e; d ← vec_at (dense_ s1) i;
              vec_set (dense_ s1) i (Storage (index d) v) with
        | Some dense' =>
            Ok tt {| sparse_ := sparse_ s1; dense_ := dense'; n := n s1 |}
        | None => Undefined
        end
      else
        (* the slot dense_[n], appended when the vector is full *)
        let slot :=
          if vec_size (dense_ s1) =? n s1
          then Some (dense_ s1 ++ [Storage e v])
          else vec_set (dense_ s1) (n s1) (Storage e v) in
        match slot, vec_set (sparse_ s1) e (n s1) with
        | Some dense', Some sparse' =>
            Ok tt {| sparse_ := sparse'; dense_ := dense';
                     n := (n s1 + 1) mod word |}
        | _, _ => Undefined
        end
  | Raise s1 => Raise s1
  | Undefined => Undefined
  end.

(** [insert(index, value)]. *)
Definition insert_value (e : N) (v : V) (s : sparse_set) : outcome sparse_set unit :=
  emplace e v s.

(** [erase(index)]. The moved-from entry stays at [dense_[n]], outside the
    valid range. The subscripts of the swap are in range whenever the
    class invariant [sparse_set_wf] holds; outside it the C++ behaviour is
    undefined and the model leaves the set as it is. *)
Definition erase (e : N) (s : sparse_set) : sparse_set :=
  if has s e then
    match vec_at (sparse_ s) e with
    | Some old_idx =>
        let n' := (n s + word - 1) mod word in
        if old_idx =? n' then
          {| sparse_ := <[N.to_nat e := npos]> (sparse_ s);
             dense_ := dense_ s; n := n' |}
        else
          match vec_at (dense_ s) n' with
          | Some last =>
              {| sparse_ := <[N.to_nat e := npos]>
                              (<[N.to_nat (index last) := old_idx]> (sparse_ s));
                 dense_ := <[N.to_nat old_idx := last]> (dense_ s);
                 n := n' |}
          | None => s
          end
    | None => s
    end
  else s.

(** [range()]: the entries [dense_[0 .. n)]. *)
Definition range (s : sparse_set) : list storage :=
  take (N.to_nat (n s)) (dense_ s).

(** The class invariant of [sparse_set]: the valid entries are inside
    [dense_], the sparse array respects the capacity, and the sparse slot
    of the owner of a valid entry points back at the entry. *)
Definition sparse_set_wf (s : sparse_set) : Prop :=
  n s ≤ vec_size (dense_ s) ∧
  vec_size (sparse_ s) ≤ max_capacity ∧
  ∀ i d, i < n s → vec_at (dense_ s) i = Some d →
         vec_at (sparse_ s) (index d) = Some i.

(** What the member functions keep besides [sparse_set_wf]: the sparse
    array never shrinks below the 1024 slots of the constructor, [dense_]
    is no longer than [sparse_], and a sparse slot that is not [npos]
    belongs to a present entity. *)
Definition sparse_set_tight (s : sparse_set) : Prop :=
  1024 ≤ vec_size (sparse_ s) ∧
  vec_size (dense_ s) ≤ vec_size (sparse_ s) ∧
  ∀ e i, vec_at (sparse_ s) e = Some i → i ≠ npos → has s e = true.

(** Whether the sparse slots of the owners of [items], taken as the
    entries [dense_[i], dense_[i+1], ...], point back at those entries. *)
Fixpoint points_back (sparse : list N) (i : N) (items : list storage) : bool :=
  match items with
  | [] => true
  | d :: items' =>
      match vec_at sparse (index d) with
      | Some j => j =? i
      | None => false
      end && points_back sparse (i + 1) items'
  end.

(** A test that implies the class invariant. *)
Definition sparse_set_wfb (s : sparse_set) : bool :=
  (n s <=? vec_size (dense_ s)) && (vec_size (sparse_ s) <=? max_capacity) &&
  points_back (sparse_ s) 0 (range s).

End SparseSet.

Arguments storage : clear implicits.
Arguments sparse_set : clear implicits.

(** ** [registry] *)

(** A component type [T] is named by a string; [entity] and
    [component_id] are [N]. *)
Definition ctype : Type := string.

Section Registry.

(** Type erasure: every storage holds payloads of the one universe [V],
    the storage of component type [T] being found under [T]'s id. *)
Context {V : Type}.

(** The state the member functions of one [registry] act on: the three
    process-wide statics ([next_entity_], [next_component_id_] and the
    function-local [id] of each [get_component_id<T>], [None] before its
    first call) and the two data members of the registry object; the
    process is taken to hold this one registry.
    [free_entities_] is kept with its back at the head of the list. *)
Record world : Type := World {
  next_entity_ : N;
  next_component_id_ : N;
  component_id_ : gmap ctype N;
  free_entities_ : list N;
  component_storages_ : gmap N (sparse_set V)
}.

(** A fresh process with a fresh registry. *)
Definition world_new : world :=
  {| next_entity_ := 0; next_component_id_ := 1; component_id_ := ∅;
     free_entities_ := []; component_storages_ := ∅ |}.

Definition set_storages (m : gmap N (sparse_set V)) (w : world) : world :=
  {| next_entity_ := next_entity_ w;
     next_component_id_ := next_component_id_ w;
     component_id_ := component_id_ w;
     free_entities_ := free_entities_ w;
     component_storages_ := m |}.

(** Member functions as state transformers over [world]. *)
Definition M (A : Type) : Type := world → outcome world A.

Definition ret {A} (a : A) : M A := λ w, Ok a w.

Definition bind {A B} (m : M A) (k : A → M B) : M B :=
  λ w, match m w with
       | Ok a w1 => k a w1
       | Raise w1 => Raise w1
       | Undefined => Undefined
       end.

Definition undefined {A} : M A := λ _, Undefined.

Local Notation "x ←← m ; k" := (bind m (λ x, k))
  (at level 20, m at level 100, k at level 200, only parsing, right associativity).

(** [get_component_id<T>()]: the function-local static [id] is set from
    the counter on the first call for [T] and returned on every call. One
    increment happens per component type of the program, so the 64-bit
    counter cannot come back to a value it had. *)
Definition get_component_id (T : ctype) : M N := λ w,
  match component_id_ w !! T with
  | Some id => Ok id w
  | None =>
      let id := next_component_id_ w in
      Ok id {| next_entity_ := next_entity_ w;
               next_component_id_ := id + 1;
               component_id_ := <[T := id]> (component_id_ w);
               free_entities_ := free_entities_ w;
               component_storages_ := component_storages_ w |}
  end.

(** [get_storage<T>()], the mutable accessor. The reference it returns is
    modelled by the key of the storage in [component_storages_]. *)
Definition get_storage (T : ctype) : M N :=
  cid ←← get_component_id T;
  λ w, match component_storages_ w !! cid with
       | Some _ => Ok cid w
       | None =>
           Ok cid (set_storages (<[cid := sparse_set_new]> (component_storages_ w)) w)
       end.

(** Reading through a storage reference. *)
Definition deref (cid : N) : M (sparse_set V) := λ w,
  match component_storages_ w !! cid with
  | Some s => Ok s w
  | None => Undefined
  end.

(** Running a member function of [sparse_set] on the referenced storage. *)
Definition on_storage {A} (cid : N) (f : sparse_set V → outcome (sparse_set V) A) : M A :=
  λ w, match component_storages_ w !! cid with
       | Some s =>
           match f s with
           | Ok a s' => Ok a (set_storages (<[cid := s']> (component_storages_ w)) w)
           | Raise s' => Raise (set_storages (<[cid := s']> (component_storages_ w)) w)
           | Undefined => Undefined
           end
       | None => Undefined
       end.

(** [new_entity()]. *)
Definition new_entity : M N := λ w,
  match free_entities_ w with
  | e :: rest =>
      Ok e {| next_entity_ := next_entity_ w;
              next_component_id_ := next_component_id_ w;
              component_id_ := component_id_ w;
              free_entities_ := rest;
              component_storages_ := component_storages_ w |}
  | [] =>
      let e := (next_entity_ w + 1) mod word in
      Ok e {| next_entity_ := e;
              next_component_id_ := next_component_id_ w;
              component_id_ := component_id_ w;
              free_entities_ := [];
              component_storages_ := component_storages_ w |}
  end.

(** [remove_entity(e)]: [erase(e)] on every registered storage, then
    [free_entities_.push_back(e)]. *)
Definition remove_entity (e : N) : M unit := λ w,
  Ok tt {| next_entity_ := next_entity_ w;
           next_component_id_ := next_component_id_ w;
           component_id_ := component_id_ w;
           free_entities_ := e :: free_entities_ w;
           component_storages_ := erase e <$> component_storages_ w |}.

(** [has_component<T>(e)]. *)
Definition has_component (T : ctype) (e : N) : M bool :=
  cid ←← get_component_id T;
  λ w, match component_storages_ w !! cid with
       | None => Ok false w
       | Some s => Ok (has s e) w
       end.

(** [get_component<T>(e)], the unchecked accessor of a mutable registry. *)
Definition get_component (T : ctype) (e : N) : M V :=
  cid ←← get_storage T;
  s ←← deref cid;
  match operator_index s e with
  | Some v => ret v
  | None => undefined
  end.

(** [try_get_component<T>(e)]; [None] is [nullptr]. *)
Definition try_get_component (T : ctype) (e : N) : M (option V) :=
  cid ←← get_component_id T;
  λ w, match component_storages_ w !! cid with
       | None => Ok None w
       | Some s =>
           if has s e then
             match operator_index s e with
             | Some v => Ok (Some v) w
             | None => Undefined
             end
           else Ok None w
       end.

(** [add_component<T>(e, args...)]. *)
Definition add_component (T : ctype) (e : N) (v : V) : M unit :=
  cid ←← get_storage T;
  on_storage cid (emplace e v).

(** [remove_component<T>(e)]. *)
Definition remove_component (T : ctype) (e : N) : M unit :=
  cid ←← get_storage T;
  on_storage cid (λ s, Ok tt (erase e s)).

(** [has_all<Ts...>(e)]: the fold of [&&], left to right, stopping at the
    first [false]. *)
Fixpoint has_all (Ts : list ctype) (e : N) : M bool :=
  match Ts with
  | [] => ret true
  | T :: Ts' =>
      b ←← has_component T e;
      if b then has_all Ts' e else ret false
  end.

(** [each<T>(f)]: the result is the sequence of the calls [f(index,
    payload)], in the order they are made. *)
Definition each (T : ctype) : M (list (N * V)) :=
  cid ←← get_storage T;
  s ←← deref cid;
  ret ((λ item, (index item, payload item)) <$> range s).

(** The type lists [view<Ts...>] can be instantiated with. [smallest] is
    declared as a [sparse_set<first_t>*] and the fold expression assigns
    [&get_storage<Ts>()] to it for every [Ts] of the pack, which is
    ill-formed for a [Ts] other than [first_t]: the instantiations that
    build are [view<T>], [view<T, T>], ..., given here by [first_t] and
    the number of further copies of it. *)
Definition view_types (first_t : ctype) (copies : nat) : list ctype :=
  first_t :: replicate copies first_t.

(** One step of the fold expression of [view] that selects [smallest],
    for the one type the step is well-formed for, [first_t] itself. *)
Definition pick_smaller (first_t : ctype) (smallest : N) : M N :=
  cid ←← get_storage first_t;
  s ←← deref cid;
  sm ←← deref smallest;
  if size s <? size sm then get_storage first_t else ret smallest.

(** The fold over a pack of [k] types, each of them [first_t]. *)
Fixpoint pick_smallest (first_t : ctype) (smallest : N) (k : nat) : M N :=
  match k with
  | O => ret smallest
  | S k' =>
      smallest' ←← pick_smaller first_t smallest;
      pick_smallest first_t smallest' k'
  end.

(** The storage [view<first_t, first_t, ...>] iterates; the pack holds
    [first_t] and its [copies], and [static_assert] makes it non-empty. *)
Definition view_driver (first_t : ctype) (copies : nat) : M N :=
  smallest ←← get_storage first_t;
  pick_smallest first_t smallest (S copies).

(** [get_component<Ts>(e)...], the arguments of the visitor. *)
Fixpoint get_components (Ts : list ctype) (e : N) : M (list V) :=
  match Ts with
  | [] => ret []
  | T :: Ts' =>
      v ←← get_component T e;
      vs ←← get_components Ts' e;
      ret (v :: vs)
  end.

(** The loop of [view] over the driver's range. *)
Fixpoint view_loop (Ts : list ctype) (items : list (storage V)) : M (list (N * list V)) :=
  match items with
  | [] => ret []
  | item :: items' =>
      let e := index item in
      b ←← has_all Ts e;
      if b then
        vs ←← get_components Ts e;
        calls ←← view_loop Ts items';
        ret ((e, vs) :: calls)
      else view_loop Ts items'
  end.

(** [view<first_t, first_t, ...>(f)]: the result is the sequence of the
    calls [f(e, components...)]. *)
Definition view (first_t : ctype) (copies : nat) : M (list (N * list V)) :=
  smallest ←← view_driver first_t copies;
  s ←← deref smallest;
  view_loop (view_types first_t copies) (range s).

(** [k] calls of [new_entity()] in a row, and the ids they return. *)
Fixpoint new_entities (k : nat) : M (list N) :=
  match k with
  | O => ret []
  | S k' =>
      e ←← new_entity;
      es ←← new_entities k';
      ret (e :: es)
  end.

(** *** Programs over the registry *)

(** The calls a client can make on a registry, [view] in the
    instantiations that build. A write through a
    reference obtained from [get_component] or handed to a visitor changes
    a payload in place, as [add_component] on a present entity does. *)
Inductive op : Type :=
| NewEntity
| RemoveEntity (e : N)
| AddComponent (T : ctype) (e : N) (v : V)
| RemoveComponent (T : ctype) (e : N)
| HasComponent (T : ctype) (e : N)
| GetComponent (T : ctype) (e : N)
| TryGetComponent (T : ctype) (e : N)
| HasAll (Ts : list ctype) (e : N)
| Each (T : ctype)
| View (first_t : ctype) (copies : nat).

Definition forget {A} (m : M A) : M unit := _ ←← m; ret tt.

Definition call (o : op) : M unit :=
  match o with
  | NewEntity => forget new_entity
  | RemoveEntity e => remove_entity e
  | AddComponent T e v => add_component T e v
  | RemoveComponent T e => remove_component T e
  | HasComponent T e => forget (has_component T e)
  | GetComponent T e => forget (get_component T e)
  | TryGetComponent T e => forget (try_get_component T e)
  | HasAll Ts e => forget (has_all Ts e)
  | Each T => forget (each T)
  | View first_t copies => forget (view first_t copies)
  end.

(** A client program is a sequence of calls. A thrown [std::out_of_range]
    is caught by the client, which goes on in the state of the throw; a
    program with an undefined call has no state to go on from. *)
Fixpoint run (ops : list op) (w : world) : option world :=
  match ops with
  | [] => Some w
  | o :: ops' =>
      match call o w with
      | Ok _ w1 | Raise w1 => run ops' w1
      | Undefined => None
      end
  end.

(** The states a client program can bring a fresh registry into. *)
Definition reachable (w : world) : Prop := ∃ ops, run ops world_new = Some w.

(** Whether every [remove_entity(e)] of the program is called while [e]
    is not on the free list. *)
Fixpoint frees_once (ops : list op) (w : world) : bool :=
  match ops with
  | [] => true
  | o :: ops' =>
      match o with
      | RemoveEntity e => bool_decide (e ∉ free_entities_ w)
      | _ => true
      end &&
      match call o w with
      | Ok _ w1 | Raise w1 => frees_once ops' w1
      | Undefined => true
      end
  end.

(** Whether the call adds a component of type [T] to entity [e]. *)
Definition adds (T : ctype) (e : N) (o : op) : Prop :=
  match o with
  | AddComponent T' e' _ => T' = T ∧ e' = e
  | _ => False
  end.

(** *** Observations and invariants *)

(** What [has_component<T>(e)] answers in state [w]. *)
Definition present (w : world) (T : ctype) (e : N) : bool :=
  match component_id_ w !! T with
  | Some cid =>
      match component_storages_ w !! cid with
      | Some s => has s e
      | None => false
      end
  | None => false
  end.

(** The storage registered for [T], if [T] has an id and a storage. *)
Definition storage_of (w : world) (T : ctype) : option (sparse_set V) :=
  cid ← component_id_ w !! T; component_storages_ w !! cid.

(** The data members of the registry object. *)
Definition registry_state (w : world) : list N * gmap N (sparse_set V) :=
  (free_entities_ w, component_storages_ w).

(** The invariant of the registry and its statics: ids are handed out
    below the counter and to one type each, and every storage is
    registered under an id below the counter and satisfies its class
    invariant. *)
Definition world_wf (w : world) : Prop :=
  (∀ T id, component_id_ w !! T = Some id → id < next_component_id_ w) ∧
  (∀ T1 T2 id, component_id_ w !! T1 = Some id →
               component_id_ w !! T2 = Some id → T1 = T2) ∧
  (∀ cid s, component_storages_ w !! cid = Some s →
            cid < next_component_id_ w ∧ sparse_set_wf s).

(** The live-entry count of [T]'s storage, 0 where [T] has none. *)
Definition size_of (w : world) (T : ctype) : N :=
  from_option size 0 (storage_of w T).

(** Every type of [Ts] has its id and its storage. *)
Definition settled (w : world) (Ts : list ctype) : Prop :=
  ∀ T, T ∈ Ts → is_Some (storage_of w T).

(** What [has_all<Ts...>(e)] answers in state [w]. *)
Definition all_present (w : world) (Ts : list ctype) (e : N) : bool :=
  forallb (λ T, present w T e) Ts.

(** [touched w w']: [w'] comes from [w] by first uses of component types
    only, that is by calls of [get_component_id] and [get_storage]. *)
Inductive touched : world → world → Prop :=
| touched_refl w : touched w w
| touched_id w T id w1 w2 :
    get_component_id T w = Ok id w1 → touched w1 w2 → touched w w2
| touched_storage w T cid w1 w2 :
    get_storage T w = Ok cid w1 → touched w1 w2 → touched w w2.

(** [get_storage<T>() const], the read-only accessor: it only looks [T]'s
    storage up and answers the function-local [static const sparse_set<T>
    empty] where there is none. The reference it returns is modelled by
    the set it refers to. *)
Definition get_storage_const (T : ctype) : M (sparse_set V) :=
  cid ←← get_component_id T;
  λ w, match component_storages_ w !! cid with
       | None => Ok sparse_set_new w
       | Some s => Ok s w
       end.

(** [get_component<T>(e) const], the unchecked accessor of a const
    registry. *)
Definition get_component_const (T : ctype) (e : N) : M V :=
  s ←← get_storage_const T;
  match operator_index s e with
  | Some v => ret v
  | None => undefined
  end.

(** The component of type [T] that entity [e] holds in state [w], if any:
    what [try_get_component<T>(e)] points at. *)
Definition component (w : world) (T : ctype) (e : N) : option V :=
  s ← storage_of w T;
  if has s e then operator_index s e else None.

End Registry.

Arguments world : clear implicits.
Arguments op : clear implicits.
Arguments M : clear implicits.

(** ** Concrete programs *)

(** Three entities, [Position] on 1 and 2, [Velocity] on 2 and 3. *)
Definition scenario1_program : list (op N) :=
  [NewEntity; NewEntity; NewEntity;
   AddComponent "Position" 1 10; AddComponent "Position" 2 20;
   AddComponent "Velocity" 2 200; AddComponent "Velocity" 3 300].

Definition scenario1 : world N :=
  default world_new (run scenario1_program world_new).

(** The [Position] storage of [scenario1]. *)
Definition scenario1_positions : sparse_set N :=
  default sparse_set_new (storage_of scenario1 "Position").

(** [scenario1_positions] after [emplace(7, 70)], a new entity. *)
Definition scenario1_positions_plus : sparse_set N :=
  match emplace 7 70 scenario1_positions with
  | Ok _ s => s
  | _ => scenario1_positions
  end.

(** [remove_entity(1)] called twice on a fresh registry. *)
Definition double_free_program : list (op N) := [RemoveEntity 1; RemoveEntity 1].

Definition double_free : world N :=
  default world_new (run double_free_program world_new).

(** [scenario1] after [add_component<Mass>(2000000, 0)], which throws. *)
Definition scenario1_failed_add : world N :=
  match add_component "Mass" 2000000 0 scenario1 with
  | Raise w => w
  | _ => scenario1
  end.

(** [scenario1] after [add_component<Position>(2, 99)], which overwrites. *)
Definition scenario1_overwritten : world N :=
  match add_component "Position" 2 99 scenario1 with
  | Ok _ w => w
  | _ => scenario1
  end.

(** Entity 2 of [scenario1] removed, handed out again and given a
    [Velocity]. *)
Definition recycle_program : list (op N) :=
  [NewEntity; AddComponent "Velocity" 2 7; AddComponent "Position" 1 5].

Definition recycled : world N :=
  default scenario1 (run (RemoveEntity 2 :: recycle_program) scenario1).

(** Entities 1 and 3 of [scenario1] removed, each once. *)
Definition free_program : list (op N) :=
  [RemoveEntity 3; HasComponent "Velocity" 3; RemoveEntity 1].

Definition freed : world N := default scenario1 (run free_program scenario1).

(** * Properties *)

(** ** Vectors *)

Lemma vec_at_lookup {A} (v : list A) (i : N) : vec_at v i = v !! N.to_nat i.
Proof.
  unfold vec_at, vec_size. destruct (N.ltb_spec i (N.of_nat (length v))); [done|].
  symmetry. apply lookup_ge_None. lia.
Qed.

Lemma vec_at_lt {A} (v : list A) (i : N) (x : A) :
  vec_at v i = Some x → i < vec_size v.
Proof.
  rewrite vec_at_lookup. intros H%lookup_lt_Some. unfold vec_size. lia.
Qed.

Lemma vec_set_Some {A} (v v' : list A) (i : N) (x : A) :
  vec_set v i x = Some v' ↔ i < vec_size v ∧ v' = <[N.to_nat i := x]> v.
Proof.
  unfold vec_set. destruct (N.ltb_spec i (vec_size v)); split.
  - intros [= <-]. done.
  - intros [_ ->]. done.
  - done.
  - intros [? _]. lia.
Qed.

(** ** The sparse set *)

Section SparseSetFacts.

Context {V : Type}.
Implicit Types (s : sparse_set V) (e i : N) (v : V) (d : storage V).

Lemma has_true_iff s e :
  has s e = true ↔
  ∃ i d, sparse_ s !! N.to_nat e = Some i ∧ i ≠ npos ∧ i < n s ∧
         dense_ s !! N.to_nat i = Some d ∧ index d = e.
Proof.
  unfold has. rewrite vec_at_lookup. split.
  - destruct (sparse_ s !! N.to_nat e) as [i|]; [|done].
    destruct (N.eqb_spec i npos); [done|].
    destruct (N.ltb_spec i (n s)); [|done].
    rewrite vec_at_lookup. destruct (dense_ s !! N.to_nat i) as [d|] eqn:Hd; [|done].
    intros ?%N.eqb_eq. eauto 8.
  - intros (i & d & -> & Hi & Hlt & Hd & He).
    destruct (N.eqb_spec i npos); [done|].
    destruct (N.ltb_spec i (n s)); [|lia].
    rewrite vec_at_lookup, Hd. by apply N.eqb_eq.
Qed.

Lemma has_false_iff s e :
  has s e = false ↔
  ∀ i d, sparse_ s !! N.to_nat e = Some i → i ≠ npos → i < n s →
         dense_ s !! N.to_nat i = Some d → index d ≠ e.
Proof.
  rewrite <- not_true_iff_false, has_true_iff. split.
  - intros Hno i d ? ? ? ? ?. apply Hno. eauto 8.
  - intros Hall (i & d & ? & ? & ? & ? & ?). by eapply Hall.
Qed.

Lemma has_operator_index s e :
  has s e = true → is_Some (operator_index s e).
Proof.
  intros (i & d & Hi & _ & _ & Hd & _)%has_true_iff.
  unfold operator_index. rewrite !vec_at_lookup, Hi. simpl.
  rewrite vec_at_lookup, Hd. simpl. eauto.
Qed.

Lemma points_back_sound (sparse : list N) (items : list (storage V)) i0 (k : nat) d :
  points_back sparse i0 items = true → items !! k = Some d →
  vec_at sparse (index d) = Some (i0 + N.of_nat k).
Proof.
  revert i0 k. induction items as [|d0 items IH]; intros i0 k; simpl; [done|].
  intros [Hd Hrest]%andb_true_iff. destruct k as [|k]; simpl.
  - intros [= <-]. destruct (vec_at sparse (index d0)) as [j|]; [|done].
    apply N.eqb_eq in Hd. subst. f_equal. lia.
  - intros Hk. rewrite (IH _ _ Hrest Hk). f_equal. lia.
Qed.

Lemma sparse_set_wfb_sound s : sparse_set_wfb s = true → sparse_set_wf s.
Proof.
  unfold sparse_set_wfb. intros [[Hn Hcap]%andb_true_iff Hback]%andb_true_iff.
  apply N.leb_le in Hn, Hcap. split_and!; [done|done|].
  intros i d Hi Hd. rewrite vec_at_lookup in Hd.
  assert (range s !! N.to_nat i = Some d) as Hr.
  { unfold range. apply lookup_take_Some. split; [done|lia]. }
  rewrite (points_back_sound _ _ _ _ _ Hback Hr). f_equal. lia.
Qed.

Lemma sparse_set_new_wf : sparse_set_wf (@sparse_set_new V).
Proof.
  split_and!.
  - simpl. unfold vec_size. lia.
  - vm_compute. discriminate.
  - simpl. intros i d Hi. lia.
Qed.

Lemma has_sparse_set_new e : has (@sparse_set_new V) e = false.
Proof.
  apply has_false_iff. simpl. intros i d _ _ Hi. lia.
Qed.

(** The owners of the valid entries are pairwise distinct. *)
Lemma range_NoDup s :
  sparse_set_wf s → NoDup (index <$> range s).
Proof.
  intros (Hn & _ & Hback). apply NoDup_alt. intros i j e Hi Hj.
  unfold range in *.
  rewrite list_lookup_fmap in Hi, Hj.
  destruct (take _ _ !! i) as [di|] eqn:Hdi; [|done].
  destruct (take _ _ !! j) as [dj|] eqn:Hdj; [|done].
  simpl in Hi, Hj. injection Hi as Hi. injection Hj as Hj.
  apply lookup_take_Some in Hdi as [Hdi Hilt], Hdj as [Hdj Hjlt].
  pose proof (Hback (N.of_nat i) di) as H1.
  pose proof (Hback (N.of_nat j) dj) as H2.
  rewrite !vec_at_lookup, !Nat2N.id in H1, H2.
  specialize (H1 ltac:(lia) Hdi). specialize (H2 ltac:(lia) Hdj).
  rewrite Hi in H1. rewrite Hj, H1 in H2. injection H2. lia.
Qed.

(** There are no more valid entries than sparse slots. *)
Lemma size_le_sparse s :
  sparse_set_wf s → n s ≤ vec_size (sparse_ s).
Proof.
  intros Hwf. pose proof (range_NoDup s Hwf) as Hnd.
  destruct Hwf as (Hn & _ & Hback).
  assert (Hsub : (N.to_nat <$> (index <$> range s)) ⊆+ seq 0 (length (sparse_ s))).
  { apply NoDup_submseteq.
    - apply NoDup_fmap_2; [apply _|done].
    - intros x (e & -> & (d & -> & Hd)%list_elem_of_fmap)%list_elem_of_fmap.
      apply list_elem_of_lookup in Hd as [i Hd].
      unfold range in Hd. apply lookup_take_Some in Hd as [Hd Hi].
      pose proof (Hback (N.of_nat i) d) as H1.
      rewrite !vec_at_lookup, !Nat2N.id in H1.
      specialize (H1 ltac:(lia) Hd). apply lookup_lt_Some in H1.
      apply elem_of_seq. lia. }
  apply submseteq_length in Hsub.
  rewrite !length_fmap, length_seq in Hsub. unfold range in Hsub.
  rewrite length_take in Hsub. unfold vec_size in *. lia.
Qed.

Lemma size_lt_npos s : sparse_set_wf s → n s < npos.
Proof.
  intros Hwf. pose proof (size_le_sparse s Hwf). destruct Hwf as (_ & Hcap & _).
  unfold max_capacity, npos in *. lia.
Qed.

(** Under the invariant, [has] is membership in the range. *)
Lemma has_iff_range s e :
  sparse_set_wf s → has s e = true ↔ e ∈ index <$> range s.
Proof.
  intros Hwf. rewrite has_true_iff. split.
  - intros (i & d & _ & _ & Hlt & Hd & <-).
    apply list_elem_of_fmap. exists d. split; [done|].
    apply list_elem_of_lookup. exists (N.to_nat i). unfold range.
    apply lookup_take_Some. split; [done|lia].
  - intros (d & -> & Hd)%list_elem_of_fmap.
    apply list_elem_of_lookup in Hd as [i Hd]. unfold range in Hd.
    apply lookup_take_Some in Hd as [Hd Hi].
    pose proof (size_lt_npos s Hwf) as Hnpos.
    destruct Hwf as (Hn & _ & Hback).
    pose proof (Hback (N.of_nat i) d) as H1.
    rewrite !vec_at_lookup, !Nat2N.id in H1.
    specialize (H1 ltac:(lia) Hd).
    exists (N.of_nat i), d. rewrite Nat2N.id. split_and!; [done|lia|lia|done|done].
Qed.

(** *** [grow_sparse_to] and [emplace] *)

Lemma grow_sparse_to_Ok e s s1 :
  vec_size (sparse_ s) ≤ max_capacity →
  grow_sparse_to e s = Ok tt s1 →
  dense_ s1 = dense_ s ∧ n s1 = n s ∧
  (∃ k, sparse_ s1 = sparse_ s ++ replicate k npos) ∧
  vec_size (sparse_ s1) ≤ max_capacity.
Proof.
  intros Hcap. unfold grow_sparse_to.
  destruct (N.leb_spec (vec_size (sparse_ s)) e) as [Hge|Hlt].
  - cbv zeta. destruct (N.ltb_spec max_capacity
      (N.max ((vec_size (sparse_ s) * 2) `mod` word) ((e + 1) `mod` word))) as [|Hfit];
      [done|].
    intros [= <-]. simpl. split_and!; [done|done|..].
    + eexists. apply resize_ge.
      assert ((vec_size (sparse_ s) * 2) `mod` word = vec_size (sparse_ s) * 2) as Heq.
      { apply N.mod_small. unfold max_capacity, word in *. lia. }
      unfold vec_size in *. lia.
    + unfold vec_size. rewrite length_resize, N2Nat.id. done.
  - intros [= <-]. split_and!; [done|done|..|done].
    exists 0%nat. simpl. by rewrite app_nil_r.
Qed.

Lemma grow_sparse_to_Raise e s s1 :
  grow_sparse_to e s = Raise s1 →
  s1 = s ∧ vec_size (sparse_ s) ≤ e ∧
  max_capacity < N.max ((vec_size (sparse_ s) * 2) `mod` word) ((e + 1) `mod` word).
Proof.
  unfold grow_sparse_to.
  destruct (N.leb_spec (vec_size (sparse_ s)) e) as [Hge|Hlt]; [|done].
  cbv zeta. destruct (N.ltb_spec max_capacity
      (N.max ((vec_size (sparse_ s) * 2) `mod` word) ((e + 1) `mod` word))); [|done].
  by intros [= <-].
Qed.

Lemma grow_sparse_to_defined e s : grow_sparse_to e s ≠ Undefined.
Proof. unfold grow_sparse_to. repeat case_match; done. Qed.

(** A thrown [emplace] leaves the set as it was. *)
Lemma emplace_Raise e v s s' : emplace e v s = Raise s' → s' = s.
Proof.
  unfold emplace. destruct (grow_sparse_to e s) as [[] s1|s1|] eqn:Hg.
  - repeat case_match; done.
  - intros [= <-]. by apply grow_sparse_to_Raise in Hg as [-> _].
  - done.
Qed.

(** [emplace] throws exactly when [grow_sparse_to] does. *)
Lemma emplace_Raise_iff e v s :
  (∃ s', emplace e v s = Raise s') ↔
  vec_size (sparse_ s) ≤ e ∧
  max_capacity < N.max ((vec_size (sparse_ s) * 2) `mod` word) ((e + 1) `mod` word).
Proof.
  split.
  - intros [s' H]. unfold emplace in H.
    destruct (grow_sparse_to e s) as [[] s1|s1|] eqn:Hg.
    + repeat case_match; done.
    + by apply grow_sparse_to_Raise in Hg as (_ & ? & ?).
    + done.
  - intros [Hge Hbig]. exists s. unfold emplace, grow_sparse_to.
    destruct (N.leb_spec (vec_size (sparse_ s)) e); [|lia]. cbv zeta.
    destruct (N.ltb_spec max_capacity
      (N.max ((vec_size (sparse_ s) * 2) `mod` word) ((e + 1) `mod` word))); [done|lia].
Qed.

(** The two ways [emplace] returns: the payload of a present entity is
    overwritten in place, or a new entry is written at [dense_[n]]. *)
Lemma emplace_Ok_inv e v s s' :
  emplace e v s = Ok tt s' →
  ∃ s1, grow_sparse_to e s = Ok tt s1 ∧
    ((∃ i d, has s1 e = true ∧ sparse_ s1 !! N.to_nat e = Some i ∧
             dense_ s1 !! N.to_nat i = Some d ∧
             s' = {| sparse_ := sparse_ s1;
                     dense_ := <[N.to_nat i := Storage (index d) v]> (dense_ s1);
                     n := n s1 |}) ∨
     (∃ dense', has s1 e = false ∧ e < vec_size (sparse_ s1) ∧
             n s1 < vec_size dense' ∧
             vec_size dense' ≤ N.max (vec_size (dense_ s1)) (n s1 + 1) ∧
             dense' !! N.to_nat (n s1) = Some (Storage e v) ∧
             (∀ j, (j < N.to_nat (n s1))%nat → dense' !! j = dense_ s1 !! j) ∧
             s' = {| sparse_ := <[N.to_nat e := n s1]> (sparse_ s1);
                     dense_ := dense';
                     n := (n s1 + 1) `mod` word |})).
Proof.
  unfold emplace. destruct (grow_sparse_to e s) as [[] s1|s1|] eqn:Hg; [|done..].
  intros H. exists s1. split; [done|].
  destruct (has s1 e) eqn:Hhas.
  - left. rewrite !vec_at_lookup in H.
    destruct (sparse_ s1 !! N.to_nat e) as [i|] eqn:Hi; simpl in H; [|done].
    rewrite vec_at_lookup in H.
    destruct (dense_ s1 !! N.to_nat i) as [d|] eqn:Hd; simpl in H; [|done].
    destruct (vec_set _ _ _) as [dense'|] eqn:Hset; [|done].
    apply vec_set_Some in Hset as [_ ->]. injection H as <-. eauto 8.
  - right. cbv zeta in H.
    destruct (vec_set (sparse_ s1) e (n s1)) as [sparse'|] eqn:Hsp; cycle 1.
    { by repeat case_match. }
    apply vec_set_Some in Hsp as [He ->].
    destruct (N.eqb_spec (vec_size (dense_ s1)) (n s1)) as [Hfull|Hroom].
    + injection H as <-. eexists. split_and!; [done|done|..|done].
      * unfold vec_size in *. rewrite length_app. simpl. lia.
      * unfold vec_size in *. rewrite length_app. simpl. lia.
      * rewrite <- Hfull. unfold vec_size. rewrite Nat2N.id.
        by rewrite list_lookup_middle.
      * intros j Hj. apply lookup_app_l. unfold vec_size in *. lia.
    + destruct (vec_set (dense_ s1) _ _) as [dense'|] eqn:Hset; [|done].
      apply vec_set_Some in Hset as [Hlt ->]. injection H as <-.
      eexists. split_and!; [done|done|..|done].
      * unfold vec_size in *. rewrite length_insert. lia.
      * unfold vec_size in *. rewrite length_insert. lia.
      * apply list_lookup_insert_eq. unfold vec_size in *. lia.
      * intros j Hj. apply list_lookup_insert_ne. lia.
Qed.

Lemma lookup_grown (l : list N) (k j : nat) (i : N) :
  (l ++ replicate k npos) !! j = Some i → i ≠ npos → l !! j = Some i.
Proof.
  intros [H|[_ H]]%lookup_app_Some Hi; [done|].
  apply lookup_replicate in H as [-> _]. done.
Qed.

Lemma grow_sparse_to_wf e s s1 :
  sparse_set_wf s → grow_sparse_to e s = Ok tt s1 →
  sparse_set_wf s1 ∧ ∀ e', has s1 e' = has s e'.
Proof.
  intros (Hn & Hcap & Hback) Hg.
  apply grow_sparse_to_Ok in Hg as (Hd & Hn1 & [k Hsp] & Hcap1); [|done].
  split.
  - split_and!; [by rewrite Hd, Hn1|done|].
    intros i d Hi Hdi. rewrite Hd in Hdi. rewrite Hn1 in Hi.
    specialize (Hback i d Hi Hdi). rewrite vec_at_lookup in Hback |- *.
    rewrite Hsp. rewrite lookup_app_l; [done|]. by eapply lookup_lt_Some.
  - intros e'. apply eq_true_iff_eq. rewrite !has_true_iff, Hd, Hn1, Hsp.
    split; intros (i & d & Hi & Hnp & ?); exists i, d; split_and!; try tauto.
    + by eapply lookup_grown.
    + rewrite lookup_app_l; [done|]. by eapply lookup_lt_Some.
Qed.

(** [emplace] keeps the class invariant. *)
Lemma emplace_wf e v s s' :
  sparse_set_wf s → emplace e v s = Ok tt s' → sparse_set_wf s'.
Proof.
  intros Hwf (s1 & Hg & Hcase)%emplace_Ok_inv.
  apply grow_sparse_to_wf in Hg as [Hwf1 _]; [|done].
  pose proof (size_lt_npos s1 Hwf1) as Hnpos.
  destruct Hwf1 as (Hn & Hcap & Hback).
  destruct Hcase as [(i0 & d0 & Hhas & Hi0 & Hd0 & ->)
                    |(dense' & Hhas & He & Hlen & Hlen' & Hnew & Hold & ->)].
  - apply has_true_iff in Hhas as (i0' & d0' & Hi0' & _ & Hlt & Hd0' & He).
    simplify_eq.
    split_and!; simpl.
    + unfold vec_size in *. by rewrite length_insert.
    + done.
    + intros i d Hi. rewrite vec_at_lookup.
      destruct (decide (N.to_nat i0' = N.to_nat i)) as [Heq|Hne].
      * rewrite Heq, list_lookup_insert_eq by (unfold vec_size in *; lia).
        intros [= <-]. simpl. apply Hback; [lia|].
        rewrite vec_at_lookup. by rewrite <- Heq.
      * rewrite list_lookup_insert_ne by done. rewrite <- vec_at_lookup.
        by apply Hback.
  - assert ((n s1 + 1) `mod` word = n s1 + 1) as Hn'.
    { apply N.mod_small. unfold npos, word in *. lia. }
    split_and!; simpl; rewrite ?Hn'.
    + lia.
    + unfold vec_size in *. by rewrite length_insert.
    + intros i d Hi. rewrite !vec_at_lookup.
      destruct (decide (i = n s1)) as [->|Hne].
      * rewrite Hnew. intros [= <-]. simpl.
        apply list_lookup_insert_eq. unfold vec_size in *. lia.
      * rewrite Hold by lia. intros Hd.
        assert (sparse_ s1 !! N.to_nat (index d) = Some i) as Hsp.
        { rewrite <- vec_at_lookup. apply Hback; [lia|]. by rewrite vec_at_lookup. }
        rewrite list_lookup_insert_ne; [done|].
        intros Heq. apply N2Nat.inj in Heq. subst e.
        apply not_true_iff_false in Hhas. apply Hhas, has_true_iff.
        exists i, d. split_and!; [done|lia|lia|done|done].
Qed.

(** After [emplace(e, v)] the entity is present with payload [v]. *)
Lemma emplace_operator_index e v s s' :
  emplace e v s = Ok tt s' → operator_index s' e = Some v.
Proof.
  intros (s1 & _ & Hcase)%emplace_Ok_inv. unfold operator_index.
  destruct Hcase as [(i0 & d0 & Hhas & Hi0 & Hd0 & ->)
                    |(dense' & Hhas & He & Hlen & Hlen' & Hnew & Hold & ->)]; simpl.
  - rewrite vec_at_lookup, Hi0. simpl. rewrite vec_at_lookup.
    rewrite list_lookup_insert_eq; [done|]. by eapply lookup_lt_Some.
  - rewrite vec_at_lookup, list_lookup_insert_eq by (unfold vec_size in *; lia).
    simpl. by rewrite vec_at_lookup, Hnew.
Qed.

Lemma emplace_has_same e v s s' :
  sparse_set_wf s → emplace e v s = Ok tt s' → has s' e = true.
Proof.
  intros Hwf Hem. pose proof (emplace_wf _ _ _ _ Hwf Hem) as Hwf'.
  apply emplace_Ok_inv in Hem as (s1 & Hg & Hcase).
  apply grow_sparse_to_wf in Hg as [Hwf1 _]; [|done].
  pose proof (size_lt_npos s1 Hwf1) as Hnpos.
  apply has_true_iff.
  destruct Hcase as [(i0 & d0 & Hhas & Hi0 & Hd0 & ->)
                    |(dense' & Hhas & He & Hlen & Hlen' & Hnew & Hold & ->)]; simpl.
  - apply has_true_iff in Hhas as (i0' & d0' & Hi0' & ? & Hlt & Hd0' & He).
    simplify_eq. exists i0', (Storage (index d0') v). split_and!; try done.
    apply list_lookup_insert_eq. by eapply lookup_lt_Some.
  - exists (n s1), (Storage e v). split_and!; try done.
    + apply list_lookup_insert_eq. unfold vec_size in *. lia.
    + lia.
    + rewrite N.mod_small; unfold npos, word in *; lia.
Qed.

(** [emplace(e', v)] changes the membership of no other entity. *)
Lemma emplace_has_other e e' v s s' :
  sparse_set_wf s → emplace e' v s = Ok tt s' → e ≠ e' → has s' e = has s e.
Proof.
  intros Hwf (s1 & Hg & Hcase)%emplace_Ok_inv Hne.
  apply grow_sparse_to_wf in Hg as [Hwf1 <-]; [|done].
  pose proof (size_lt_npos s1 Hwf1) as Hnpos.
  destruct Hwf1 as (Hn & Hcap & Hback).
  apply eq_true_iff_eq. rewrite !has_true_iff.
  destruct Hcase as [(i0 & d0 & Hhas & Hi0 & Hd0 & ->)
                    |(dense' & Hhas & He & Hlen & Hlen' & Hnew & Hold & ->)]; simpl.
  - apply has_true_iff in Hhas as (i0' & d0' & Hi0' & ? & Hlt & Hd0' & He).
    simplify_eq.
    split; intros (i & d & Hi & Hnp & Hilt & Hd & Hidx).
    + destruct (decide (i0' = i)) as [->|Hneq].
      * rewrite list_lookup_insert_eq in Hd by (by eapply lookup_lt_Some).
        injection Hd as <-. simpl in Hidx. done.
      * rewrite list_lookup_insert_ne in Hd by lia. eauto 8.
    + exists i, d. split_and!; try done.
      rewrite list_lookup_insert_ne; [done|].
      intros Heq. rewrite Heq in Hd0'. simplify_eq.
  - rewrite N.mod_small by (unfold npos, word in *; lia).
    assert (N.to_nat e' ≠ N.to_nat e) as Hne' by lia.
    split; intros (i & d & Hi & Hnp & Hilt & Hd & Hidx).
    + rewrite list_lookup_insert_ne in Hi by done.
      destruct (decide (i = n s1)) as [->|Hneq].
      * rewrite Hnew in Hd. injection Hd as <-. simpl in Hidx. done.
      * rewrite Hold in Hd by lia. exists i, d. split_and!; try done. lia.
    + exists i, d. rewrite list_lookup_insert_ne by done.
      rewrite Hold by lia. split_and!; try done. lia.
Qed.

Lemma grow_sparse_to_size e s s1 :
  grow_sparse_to e s = Ok tt s1 → e < npos →
  e < vec_size (sparse_ s1) ∧
  (vec_size (sparse_ s) ≤ e →
   vec_size (sparse_ s1) =
     N.max ((vec_size (sparse_ s) * 2) `mod` word) ((e + 1) `mod` word)).
Proof.
  unfold grow_sparse_to. intros H He.
  destruct (N.leb_spec (vec_size (sparse_ s)) e) as [Hge|Hlt].
  - cbv zeta in H. destruct (max_capacity <? _); [done|]. injection H as <-.
    simpl. assert (∀ k (l : list N), vec_size (resize (N.to_nat k) npos l) = k) as ->.
    { intros k l. unfold vec_size. by rewrite length_resize, N2Nat.id. }
    split; [|done]. rewrite (N.mod_small (e + 1)) by (unfold npos, word in *; lia).
    lia.
  - injection H as <-. split; [done|lia].
Qed.

(** On a set that satisfies the invariant, [emplace] of an entity other
    than [2^64 - 1] returns or throws. *)
Lemma emplace_defined e v s :
  sparse_set_wf s → e < npos → emplace e v s ≠ Undefined.
Proof.
  intros Hwf He. unfold emplace.
  destruct (grow_sparse_to e s) as [[] s1|s1|] eqn:Hg; [|done|].
  - destruct (grow_sparse_to_size _ _ _ Hg He) as [Hlt _].
    apply grow_sparse_to_wf in Hg as [(Hn & _ & _) _]; [|done].
    destruct (has s1 e) eqn:Hhas.
    + apply has_true_iff in Hhas as (i & d & Hi & _ & _ & Hd & _).
      rewrite vec_at_lookup, Hi. simpl. rewrite vec_at_lookup, Hd. simpl.
      unfold vec_set. destruct (N.ltb_spec i (vec_size (dense_ s1))); [done|].
      apply lookup_lt_Some in Hd. unfold vec_size in *. lia.
    + cbv zeta. unfold vec_set.
      destruct (N.ltb_spec e (vec_size (sparse_ s1))); [|lia].
      destruct (N.eqb_spec (vec_size (dense_ s1)) (n s1)); [done|].
      destruct (N.ltb_spec (n s1) (vec_size (dense_ s1))); [done|lia].
  - by apply grow_sparse_to_defined in Hg.
Qed.

(** *** [erase] *)

Lemma erase_absent e s : has s e = false → erase e s = s.
Proof. unfold erase. by intros ->. Qed.

(** What [erase] does to a present entity: its entry is the last one and
    is dropped, or the last entry is moved over it. *)
Lemma erase_present_inv e s :
  sparse_set_wf s → has s e = true →
  ∃ i0 d0, sparse_ s !! N.to_nat e = Some i0 ∧ i0 < n s ∧
           dense_ s !! N.to_nat i0 = Some d0 ∧ index d0 = e ∧
    ((i0 = n s - 1 ∧
      erase e s = {| sparse_ := <[N.to_nat e := npos]> (sparse_ s);
                     dense_ := dense_ s; n := n s - 1 |}) ∨
     (i0 ≠ n s - 1 ∧ ∃ last,
      dense_ s !! N.to_nat (n s - 1) = Some last ∧
      sparse_ s !! N.to_nat (index last) = Some (n s - 1) ∧
      index last ≠ e ∧
      erase e s = {| sparse_ := <[N.to_nat e := npos]>
                                  (<[N.to_nat (index last) := i0]> (sparse_ s));
                     dense_ := <[N.to_nat i0 := last]> (dense_ s);
                     n := n s - 1 |})).
Proof.
  intros Hwf Hhas. pose proof (size_lt_npos s Hwf) as Hnpos.
  destruct Hwf as (Hn & Hcap & Hback).
  unfold erase. rewrite Hhas.
  apply has_true_iff in Hhas as (i0 & d0 & Hi0 & Hnp & Hlt & Hd0 & He).
  rewrite vec_at_lookup, Hi0. cbv zeta.
  assert ((n s + word - 1) `mod` word = n s - 1) as ->.
  { replace (n s + word - 1) with (n s - 1 + 1 * word) by (unfold word; lia).
    rewrite N.Div0.mod_add. apply N.mod_small. unfold npos, word in *. lia. }
  exists i0, d0. split_and!; [done..|].
  destruct (N.eqb_spec i0 (n s - 1)) as [Heq|Hneq]; [by left|right].
  split; [done|].
  destruct (lookup_lt_is_Some_2 (dense_ s) (N.to_nat (n s - 1))) as [last Hlast].
  { unfold vec_size in *. lia. }
  rewrite vec_at_lookup, Hlast. exists last.
  pose proof (Hback (n s - 1) last ltac:(lia)) as Hl.
  rewrite !vec_at_lookup in Hl. specialize (Hl Hlast).
  split_and!; [done|done|..].
  - intros Heq. rewrite Heq, Hi0 in Hl. by injection Hl.
  - done.
Qed.

(** [erase] keeps the class invariant. *)
Lemma erase_wf e s : sparse_set_wf s → sparse_set_wf (erase e s).
Proof.
  intros Hwf. destruct (has s e) eqn:Hhas; [|by rewrite erase_absent].
  destruct (erase_present_inv e s Hwf Hhas)
    as (i0 & d0 & Hi0 & Hlt & Hd0 & He &
        [[Hlast ->]|(Hnl & last & Hlast & Hsl & Hle & ->)]);
    destruct Hwf as (Hn & Hcap & Hback).
  - split_and!; simpl.
    + lia.
    + unfold vec_size in *. by rewrite length_insert.
    + intros i d Hi Hd. rewrite vec_at_lookup in Hd. rewrite vec_at_lookup.
      pose proof (Hback i d ltac:(lia)) as Hb. rewrite !vec_at_lookup in Hb.
      specialize (Hb Hd). rewrite list_lookup_insert_ne; [done|].
      intros Heq. rewrite <- Heq, Hi0 in Hb. injection Hb. lia.
  - split_and!; simpl.
    + unfold vec_size in *. rewrite length_insert. lia.
    + unfold vec_size in *. by rewrite !length_insert.
    + intros i d Hi. rewrite !vec_at_lookup.
      destruct (decide (i = i0)) as [->|Hne].
      * rewrite list_lookup_insert_eq by (by eapply lookup_lt_Some).
        intros [= <-].
        rewrite list_lookup_insert_ne by lia.
        apply list_lookup_insert_eq. by eapply lookup_lt_Some.
      * rewrite list_lookup_insert_ne by lia. intros Hd.
        pose proof (Hback i d ltac:(lia)) as Hb. rewrite !vec_at_lookup in Hb.
        specialize (Hb Hd).
        rewrite !list_lookup_insert_ne; [done|..];
          intros Heq; rewrite <- Heq in Hb;
          first [rewrite Hsl in Hb | rewrite Hi0 in Hb]; injection Hb; lia.
Qed.

(** After [erase(e)] the entity is absent. *)
Lemma erase_has_same e s : sparse_set_wf s → has (erase e s) e = false.
Proof.
  intros Hwf. destruct (has s e) eqn:Hhas; [|by rewrite erase_absent].
  destruct (erase_present_inv e s Hwf Hhas)
    as (i0 & d0 & Hi0 & Hlt & Hd0 & He &
        [[Hlast ->]|(Hnl & last & Hlast & Hsl & Hle & ->)]);
    apply has_false_iff; simpl; intros i d Hi Hnp; exfalso; apply Hnp.
  - rewrite list_lookup_insert_eq in Hi by (by eapply lookup_lt_Some).
    by injection Hi.
  - rewrite list_lookup_insert_eq in Hi; [by injection Hi|].
    rewrite length_insert. by eapply lookup_lt_Some.
Qed.

(** [erase(e')] changes the membership of no other entity. *)
Lemma erase_has_other e e' s :
  sparse_set_wf s → e ≠ e' → has (erase e' s) e = has s e.
Proof.
  intros Hwf Hne. destruct (has s e') eqn:Hhas; [|by rewrite erase_absent].
  pose proof (size_lt_npos s Hwf) as Hnpos.
  destruct (erase_present_inv e' s Hwf Hhas)
    as (i0 & d0 & Hi0 & Hlt & Hd0 & He &
        [[Hlast ->]|(Hnl & last & Hlast & Hsl & Hle & ->)]);
    destruct Hwf as (Hn & Hcap & Hback);
    apply eq_true_iff_eq; rewrite !has_true_iff; simpl.
  - rewrite list_lookup_insert_ne by lia.
    split; intros (i & d & Hi & Hnp & Hilt & Hd & Hidx);
      exists i, d; split_and!; try done; [lia|].
    destruct (decide (i = n s - 1)) as [->|]; [|lia].
    rewrite <- Hlast, Hd0 in Hd. congruence.
  - rewrite list_lookup_insert_ne by lia.
    split; intros (i & d & Hi & Hnp & Hilt & Hd & Hidx).
    + destruct (decide (index last = e)) as [Hel|Hnel].
      * exists (n s - 1), last. split_and!; [by rewrite <- Hel|lia|lia|done|done].
      * rewrite list_lookup_insert_ne in Hi by lia.
        destruct (decide (i = i0)) as [->|Hni].
        -- rewrite list_lookup_insert_eq in Hd by (by eapply lookup_lt_Some).
           congruence.
        -- rewrite list_lookup_insert_ne in Hd by lia.
           exists i, d. split_and!; try done. lia.
    + destruct (decide (index last = e)) as [Hel|Hnel].
      * exists i0, last. rewrite Hel.
        rewrite !list_lookup_insert_eq by (by eapply lookup_lt_Some).
        split_and!; try done; [lia|lia].
      * assert (i ≠ n s - 1) as Hnl'.
        { intros ->. rewrite Hlast in Hd. congruence. }
        assert (i ≠ i0) as Hni.
        { intros ->. rewrite Hd0 in Hd. congruence. }
        exists i, d. rewrite !list_lookup_insert_ne by lia.
        split_and!; try done. lia.
Qed.

End SparseSetFacts.

(** ** The registry *)

Section RegistryFacts.

Context {V : Type}.
Implicit Types (w : world V) (T : ctype) (e cid : N) (s : sparse_set V).

(** *** First uses of component types *)

Lemma get_component_id_known T id w :
  component_id_ w !! T = Some id → get_component_id T w = Ok id w.
Proof. unfold get_component_id. by intros ->. Qed.

Lemma get_storage_known T id s w :
  component_id_ w !! T = Some id → component_storages_ w !! id = Some s →
  get_storage T w = Ok id w.
Proof.
  intros Hid Hs. unfold get_storage, bind.
  by rewrite (get_component_id_known _ _ _ Hid), Hs.
Qed.

(** [get_component_id] returns, and changes the statics at most. *)
Lemma get_component_id_spec T w :
  ∃ id w', get_component_id T w = Ok id w' ∧
    component_id_ w' !! T = Some id ∧
    registry_state w' = registry_state w ∧
    next_entity_ w' = next_entity_ w ∧
    (∀ T' id', component_id_ w !! T' = Some id' → component_id_ w' !! T' = Some id') ∧
    (∀ T', T' ≠ T → component_id_ w' !! T' = component_id_ w !! T') ∧
    (component_id_ w !! T = None → id = next_component_id_ w) ∧
    (world_wf w → world_wf w').
Proof.
  unfold get_component_id. destruct (component_id_ w !! T) as [id|] eqn:Hid.
  - exists id, w. split_and!; try done.
  - eexists _, _. split; [done|]. simpl. split_and!; try done.
    + apply lookup_insert_eq.
    + intros T' id' H. rewrite lookup_insert_ne; [done|]. congruence.
    + intros T' Hne. by rewrite lookup_insert_ne.
    + intros (Hlt & Hinj & Hst). split_and!; simpl.
      * intros T' id'. rewrite lookup_insert.
        case_decide; [intros [= <-]; lia|]. intros Hx%Hlt. lia.
      * intros T1 T2 id'. rewrite !lookup_insert.
        repeat case_decide; subst; try done.
        -- intros [= <-] Hx%Hlt. lia.
        -- intros Hx%Hlt [= <-]. lia.
        -- apply Hinj.
      * intros cid s [??]%Hst. split; [lia|done].
Qed.

(** [get_storage] returns the key of [T]'s storage, registering an empty
    one where there was none. *)
Lemma get_storage_spec T w :
  ∃ cid w', get_storage T w = Ok cid w' ∧
    component_id_ w' !! T = Some cid ∧
    free_entities_ w' = free_entities_ w ∧
    next_entity_ w' = next_entity_ w ∧
    (∀ T' id', component_id_ w !! T' = Some id' → component_id_ w' !! T' = Some id') ∧
    (∀ T', T' ≠ T → component_id_ w' !! T' = component_id_ w !! T') ∧
    (component_id_ w !! T = None → cid = next_component_id_ w) ∧
    ((∃ s, component_storages_ w !! cid = Some s ∧
           component_storages_ w' = component_storages_ w) ∨
     (component_storages_ w !! cid = None ∧
      component_storages_ w' = <[cid := sparse_set_new]> (component_storages_ w))) ∧
    (world_wf w → world_wf w').
Proof.
  unfold get_storage, bind.
  destruct (get_component_id_spec T w)
    as (cid & w1 & -> & Hid & Hreg & Hne & Hmono & Hother & Hfresh & Hwf).
  injection Hreg as Hfree Hst.
  destruct (component_storages_ w1 !! cid) as [s|] eqn:Hs.
  - exists cid, w1. split_and!; try done. left. exists s. by rewrite <- Hst.
  - eexists _, _. split; [done|]. simpl. split_and!; try done.
    + right. by rewrite <- Hst.
    + intros (Hlt & Hinj & Hsts)%Hwf. split_and!; simpl; [done|done|].
      intros cid' s'. rewrite lookup_insert. case_decide.
      * intros [= <-]. subst. split; [by eapply Hlt|apply sparse_set_new_wf].
      * apply Hsts.
Qed.

Lemma get_component_id_present T id w w' :
  world_wf w → get_component_id T w = Ok id w' →
  ∀ T' e, present w' T' e = present w T' e.
Proof.
  intros Hwf Hget T' e.
  destruct (get_component_id_spec T w)
    as (id' & w'' & Heq & Hid & [= Hfree Hst] & _ & Hmono & Hother & Hfresh & _).
  rewrite Hget in Heq. injection Heq as <- <-.
  unfold present. rewrite Hst.
  destruct (component_id_ w !! T') as [c|] eqn:Hc.
  - by rewrite (Hmono _ _ Hc).
  - destruct (decide (T' = T)) as [->|Hne].
    + rewrite Hid, (Hfresh Hc).
      destruct (component_storages_ w !! next_component_id_ w) as [s|] eqn:Hs; [|done].
      destruct Hwf as (_ & _ & Hsts). apply Hsts in Hs as [? _]. lia.
    + by rewrite (Hother _ Hne), Hc.
Qed.

Lemma get_storage_present T cid w w' :
  world_wf w → get_storage T w = Ok cid w' →
  ∀ T' e, present w' T' e = present w T' e.
Proof.
  intros Hwf Hget T' e.
  destruct (get_storage_spec T w)
    as (cid' & w'' & Heq & Hid & _ & _ & Hmono & Hother & Hfresh & Hst & _).
  rewrite Hget in Heq. injection Heq as <- <-.
  unfold present.
  destruct (component_id_ w !! T') as [c|] eqn:Hc.
  - rewrite (Hmono _ _ Hc).
    destruct Hst as [(s & _ & ->)|[Hnone ->]]; [done|].
    rewrite lookup_insert. case_decide; [|done].
    subst. by rewrite Hnone, has_sparse_set_new.
  - destruct (decide (T' = T)) as [->|Hne].
    + rewrite Hid. specialize (Hfresh Hc). subst cid.
      destruct Hst as [(s & Hs & _)|[Hnone ->]].
      * destruct Hwf as (_ & _ & Hsts). apply Hsts in Hs as [? _]. lia.
      * by rewrite lookup_insert_eq, has_sparse_set_new.
    + by rewrite (Hother _ Hne), Hc.
Qed.

(** What first uses leave as it was. *)
Lemma touched_facts w w' :
  touched w w' →
  free_entities_ w' = free_entities_ w ∧
  next_entity_ w' = next_entity_ w ∧
  (∀ T id, component_id_ w !! T = Some id → component_id_ w' !! T = Some id) ∧
  (∀ cid s, component_storages_ w !! cid = Some s →
            component_storages_ w' !! cid = Some s) ∧
  (∀ cid s, component_storages_ w' !! cid = Some s →
            component_storages_ w !! cid = Some s ∨
            (component_storages_ w !! cid = None ∧ s = sparse_set_new)) ∧
  (world_wf w → world_wf w' ∧ ∀ T e, present w' T e = present w T e).
Proof.
  induction 1 as [w|w T id w1 w2 Hget _ IH|w T cid w1 w2 Hget _ IH].
  - split_and!; auto.
  - destruct IH as (Hf & Hn & Hids & Hsts & Hnew & Hwf).
    destruct (get_component_id_spec T w)
      as (id' & w'' & Heq & Hid & [= Hfree Hst] & Hne & Hmono & _ & _ & Hwf1).
    rewrite Hget in Heq. injection Heq as <- <-.
    split_and!.
    + congruence.
    + congruence.
    + intros T' id' H'. by apply Hids, Hmono.
    + intros c s Hs. apply Hsts. by rewrite Hst.
    + intros c s Hs. rewrite <- Hst. by apply Hnew.
    + intros Hw. destruct (Hwf (Hwf1 Hw)) as [Hw2 Hp]. split; [done|].
      intros T' e. rewrite Hp. by eapply get_component_id_present.
  - destruct IH as (Hf & Hn & Hids & Hsts & Hnew & Hwf).
    destruct (get_storage_spec T w)
      as (cid' & w'' & Heq & Hid & Hfree & Hne & Hmono & _ & _ & Hst & Hwf1).
    rewrite Hget in Heq. injection Heq as <- <-.
    split_and!.
    + congruence.
    + congruence.
    + intros T' id' H'. by apply Hids, Hmono.
    + intros c s Hs. apply Hsts.
      destruct Hst as [(s' & _ & ->)|[Hnone ->]]; [done|].
      rewrite lookup_insert_ne; [done|]. congruence.
    + intros c s [Hs|Hs]%Hnew; [|destruct Hst as [(s' & _ & Heq)|[Hnone Heq]];
                                    rewrite Heq in Hs].
      * destruct Hst as [(s' & _ & Heq)|[Hnone Heq]]; rewrite Heq in Hs; [by left|].
        revert Hs. rewrite lookup_insert. case_decide; [|by left].
        intros [= <-]. subst. by right.
      * by right.
      * destruct Hs as [Hs ->]. right. split; [|done].
        revert Hs. rewrite lookup_insert. by case_decide.
    + intros Hw. destruct (Hwf (Hwf1 Hw)) as [Hw2 Hp]. split; [done|].
      intros T' e. rewrite Hp. by eapply get_storage_present.
Qed.

Lemma touched_trans w1 w2 w3 : touched w1 w2 → touched w2 w3 → touched w1 w3.
Proof.
  induction 1; [done|..]; intros H3.
  - eapply touched_id; eauto.
  - eapply touched_storage; eauto.
Qed.

Lemma touched_get_component_id T id w w' :
  get_component_id T w = Ok id w' → touched w w'.
Proof. intros. eapply touched_id; [done|apply touched_refl]. Qed.

Lemma touched_get_storage T id w w' :
  get_storage T w = Ok id w' → touched w w'.
Proof. intros. eapply touched_storage; [done|apply touched_refl]. Qed.

Lemma get_component_id_fresh T id w w' :
  get_component_id T w = Ok id w' →
  next_component_id_ w ≤ next_component_id_ w' ∧
  ∀ T' id', component_id_ w' !! T' = Some id' →
            component_id_ w !! T' = Some id' ∨
            (component_id_ w !! T' = None ∧ next_component_id_ w ≤ id').
Proof.
  unfold get_component_id. destruct (component_id_ w !! T) as [id0|] eqn:Hid.
  - intros [= <- <-]. split; [lia|]. auto.
  - intros [= <- <-]. simpl. split; [lia|]. intros T' id'.
    rewrite lookup_insert. case_decide; [|auto].
    intros [= <-]. subst. right. split; [done|lia].
Qed.

Lemma get_storage_fresh T cid w w' :
  get_storage T w = Ok cid w' →
  next_component_id_ w ≤ next_component_id_ w' ∧
  ∀ T' id', component_id_ w' !! T' = Some id' →
            component_id_ w !! T' = Some id' ∨
            (component_id_ w !! T' = None ∧ next_component_id_ w ≤ id').
Proof.
  unfold get_storage, bind.
  destruct (get_component_id T w) as [id w1| |] eqn:Hget; [|done..].
  apply get_component_id_fresh in Hget.
  destruct (component_storages_ w1 !! id); by intros [= <- <-].
Qed.

(** Ids handed out by first uses are at or above the old counter. *)
Lemma touched_fresh w w' :
  touched w w' →
  next_component_id_ w ≤ next_component_id_ w' ∧
  ∀ T id, component_id_ w' !! T = Some id →
          component_id_ w !! T = Some id ∨
          (component_id_ w !! T = None ∧ next_component_id_ w ≤ id).
Proof.
  assert (∀ w w1 w2,
    touched w w1 →
    (next_component_id_ w ≤ next_component_id_ w1 ∧
     ∀ T id, component_id_ w1 !! T = Some id →
             component_id_ w !! T = Some id ∨
             (component_id_ w !! T = None ∧ next_component_id_ w ≤ id)) →
    (next_component_id_ w1 ≤ next_component_id_ w2 ∧
     ∀ T id, component_id_ w2 !! T = Some id →
             component_id_ w1 !! T = Some id ∨
             (component_id_ w1 !! T = None ∧ next_component_id_ w1 ≤ id)) →
    next_component_id_ w ≤ next_component_id_ w2 ∧
    ∀ T id, component_id_ w2 !! T = Some id →
            component_id_ w !! T = Some id ∨
            (component_id_ w !! T = None ∧ next_component_id_ w ≤ id)) as Hcomp.
  { intros w0 w1 w2 Ht [Hn1 H1] [Hn2 H2]. split; [lia|].
    destruct (touched_facts _ _ Ht) as (_ & _ & Hmono & _).
    intros T id [Hin|[Hnone Hge]]%H2.
    - by apply H1.
    - right. split; [|lia].
      destruct (component_id_ w0 !! T) as [id0|] eqn:Hid0; [|done].
      apply Hmono in Hid0. congruence. }
  induction 1 as [w|w T id w1 w2 Hget _ IH|w T cid w1 w2 Hget _ IH].
  - split; [lia|auto].
  - eapply Hcomp; [by eapply touched_get_component_id
                  |by eapply get_component_id_fresh|done].
  - eapply Hcomp; [by eapply touched_get_storage
                  |by eapply get_storage_fresh|done].
Qed.

(** First uses change no live-entry count. *)
Lemma touched_size_of w w' T :
  world_wf w → touched w w' → size_of w' T = size_of w T.
Proof.
  intros Hwf Ht. destruct (touched_facts _ _ Ht) as (_ & _ & Hmono & Hsts & Hnew & _).
  destruct (touched_fresh _ _ Ht) as [_ Hfresh].
  unfold size_of, storage_of.
  destruct (component_id_ w !! T) as [id|] eqn:Hid; simpl.
  - rewrite (Hmono _ _ Hid). simpl.
    destruct (component_storages_ w !! id) as [s|] eqn:Hs; simpl.
    + by rewrite (Hsts _ _ Hs).
    + destruct (component_storages_ w' !! id) as [s'|] eqn:Hs'; [|done].
      apply Hnew in Hs' as [?|[_ ->]]; [congruence|done].
  - destruct (component_id_ w' !! T) as [id'|] eqn:Hid'; [|done]. simpl.
    destruct (component_storages_ w' !! id') as [s'|] eqn:Hs'; [|done].
    apply Hnew in Hs' as [Hs|[_ ->]]; [|done].
    apply Hfresh in Hid' as [?|[_ Hge]]; [congruence|].
    destruct Hwf as (_ & _ & Hst). apply Hst in Hs as [? _]. lia.
Qed.

Lemma touched_storage_of w w' T s :
  touched w w' → storage_of w T = Some s → storage_of w' T = Some s.
Proof.
  intros Ht. destruct (touched_facts _ _ Ht) as (_ & _ & Hmono & Hsts & _).
  unfold storage_of. destruct (component_id_ w !! T) as [id|] eqn:Hid; [|done].
  simpl. intros Hs. rewrite (Hmono _ _ Hid). simpl. by apply Hsts.
Qed.

(** *** Queries *)

Lemma has_component_known T id e w :
  component_id_ w !! T = Some id → has_component T e w = Ok (present w T e) w.
Proof.
  intros Hid. unfold has_component, bind, present.
  rewrite (get_component_id_known _ _ _ Hid), Hid. by case_match.
Qed.

(** [has_component] returns; it leaves the registry object as it was. *)
Lemma has_component_spec T e w :
  ∃ b w', has_component T e w = Ok b w' ∧ touched w w' ∧
    registry_state w' = registry_state w ∧
    (world_wf w → b = present w T e).
Proof.
  destruct (get_component_id_spec T w)
    as (id & w1 & Hget & Hid & Hreg & _).
  exists (present w1 T e), w1. split_and!.
  - unfold has_component, bind, present. rewrite Hget, Hid. by case_match.
  - by eapply touched_get_component_id.
  - done.
  - intros Hwf. by eapply get_component_id_present.
Qed.

Lemma all_present_ext w w' Ts e :
  (∀ T, present w' T e = present w T e) →
  all_present w' Ts e = all_present w Ts e.
Proof.
  intros Hp. unfold all_present. induction Ts as [|T Ts IH]; simpl; [done|].
  by rewrite Hp, IH.
Qed.

Lemma has_all_spec Ts e w :
  ∃ b w', has_all Ts e w = Ok b w' ∧ touched w w' ∧
    registry_state w' = registry_state w ∧
    (world_wf w → b = all_present w Ts e).
Proof.
  revert w. induction Ts as [|T Ts IH]; intros w; simpl.
  - exists true, w. split_and!; try done. apply touched_refl.
  - destruct (has_component_spec T e w) as (b & w1 & Hhas & Ht & Hreg & Hb).
    unfold bind. rewrite Hhas. destruct b.
    + destruct (IH w1) as (b' & w2 & -> & Ht' & Hreg' & Hb').
      exists b', w2. split_and!; [done|by eapply touched_trans|congruence|].
      intros Hwf. destruct (touched_facts _ _ Ht) as (_ & _ & _ & _ & _ & Hw).
      destruct (Hw Hwf) as [Hwf1 Hp]. rewrite <- (Hb Hwf). simpl.
      rewrite (Hb' Hwf1). apply all_present_ext. intros T'. apply Hp.
    + exists false, w1. split_and!; try done. intros Hwf. by rewrite <- (Hb Hwf).
Qed.

Lemma settled_id w Ts T : settled w Ts → T ∈ Ts → is_Some (component_id_ w !! T).
Proof.
  intros Hs HT. destruct (Hs T HT) as [s Hst]. unfold storage_of in Hst.
  destruct (component_id_ w !! T); [eauto|done].
Qed.

Lemma has_all_settled Ts e w :
  settled w Ts → has_all Ts e w = Ok (all_present w Ts e) w.
Proof.
  induction Ts as [|T Ts IH]; intros Hs; simpl; [done|].
  destruct (settled_id w (T :: Ts) T Hs) as [id Hid]; [left|].
  unfold bind. rewrite (has_component_known _ _ _ _ Hid).
  destruct (present w T e); [|done]. simpl. apply IH.
  intros T' HT'. apply Hs. by right.
Qed.

Lemma get_component_settled T e s v w :
  storage_of w T = Some s → operator_index s e = Some v →
  get_component T e w = Ok v w.
Proof.
  unfold storage_of. intros Hst Hop.
  destruct (component_id_ w !! T) as [id|] eqn:Hid; [|done]. simpl in Hst.
  unfold get_component, bind, deref.
  by rewrite (get_storage_known _ _ _ _ Hid Hst), Hst, Hop.
Qed.

Lemma present_storage w T e :
  present w T e = true → ∃ s, storage_of w T = Some s ∧ has s e = true.
Proof.
  unfold present, storage_of.
  destruct (component_id_ w !! T) as [id|]; [|done]. simpl.
  destruct (component_storages_ w !! id) as [s|]; [|done]. eauto.
Qed.

Lemma storage_present w T e s :
  storage_of w T = Some s → present w T e = has s e.
Proof.
  unfold present, storage_of.
  destruct (component_id_ w !! T) as [id|]; [|done]. simpl. by intros ->.
Qed.

Lemma get_components_settled Ts e w :
  all_present w Ts e = true → ∃ vs, get_components Ts e w = Ok vs w.
Proof.
  induction Ts as [|T Ts IH]; simpl; [by eexists|].
  intros [Hp Hall]%andb_true_iff.
  apply present_storage in Hp as (s & Hst & Hhas).
  destruct (has_operator_index _ _ Hhas) as [v Hv].
  destruct (IH Hall) as [vs Hvs]. exists (v :: vs).
  unfold bind. by rewrite (get_component_settled _ _ _ _ _ Hst Hv), Hvs.
Qed.

(** Once the types have their storages, the loop of [view] leaves the
    state alone and calls the visitor on the items that pass [has_all],
    in the order of the items. *)
Lemma view_loop_settled Ts items w :
  settled w Ts →
  ∃ calls, view_loop Ts items w = Ok calls w ∧
    calls.*1 = filter (λ e, all_present w Ts e = true) (index <$> items).
Proof.
  intros Hs. induction items as [|item items (calls & IH & Hcalls)]; simpl.
  - by exists [].
  - unfold bind. rewrite (has_all_settled _ _ _ Hs).
    rewrite filter_cons.
    destruct (all_present w Ts (index item)) eqn:Hall.
    + destruct (get_components_settled _ _ _ Hall) as [vs ->]. rewrite IH.
      exists ((index item, vs) :: calls). split; [done|].
      rewrite decide_True by done. rewrite fmap_cons. simpl. by rewrite Hcalls.
    + exists calls. split; [done|]. by rewrite decide_False by done.
Qed.

(** *** The driver of [view] *)

Lemma get_storage_settles T w :
  ∃ cid w' s, get_storage T w = Ok cid w' ∧ touched w w' ∧
    component_id_ w' !! T = Some cid ∧ component_storages_ w' !! cid = Some s.
Proof.
  destruct (get_storage_spec T w)
    as (cid & w' & Heq & Hid & _ & _ & _ & _ & _ & Hst & _).
  destruct Hst as [(s & Hs & Hsame)|[_ Hnew]].
  - exists cid, w', s. split_and!; try done.
    + by eapply touched_get_storage.
    + by rewrite Hsame.
  - exists cid, w', sparse_set_new. split_and!; try done.
    + by eapply touched_get_storage.
    + by rewrite Hnew, lookup_insert_eq.
Qed.

Lemma size_of_storage w T cid s :
  component_id_ w !! T = Some cid → component_storages_ w !! cid = Some s →
  storage_of w T = Some s ∧ size_of w T = size s.
Proof. unfold size_of, storage_of. intros -> ?. simpl. by simplify_option_eq. Qed.

(** The fold of [view] compares the storage of [first_t] with itself, so
    it ends on that storage and changes nothing. *)
Lemma pick_smallest_same first_t cid s k w :
  component_id_ w !! first_t = Some cid →
  component_storages_ w !! cid = Some s →
  pick_smallest first_t cid k w = Ok cid w.
Proof.
  intros Hid Hs. induction k as [|k IH]; simpl; [done|].
  unfold bind, pick_smaller, bind, deref.
  by rewrite (get_storage_known _ _ _ _ Hid Hs), Hs, Hs, N.ltb_irrefl.
Qed.

(** [view_driver] returns the storage of [first_t], registered by then,
    in the state [get_storage<first_t>()] leaves. *)
Lemma view_driver_spec first_t copies w :
  ∃ cid w' sD, get_storage first_t w = Ok cid w' ∧
    view_driver first_t copies w = Ok cid w' ∧
    touched w w' ∧
    component_id_ w' !! first_t = Some cid ∧
    component_storages_ w' !! cid = Some sD.
Proof.
  destruct (get_storage_settles first_t w) as (cid & w' & sD & Hget & Ht & Hid & Hs).
  exists cid, w', sD. split_and!; try done.
  unfold view_driver, bind. rewrite Hget.
  by apply (pick_smallest_same first_t cid sD).
Qed.

Lemma settled_view_types w first_t copies s :
  storage_of w first_t = Some s → settled w (view_types first_t copies).
Proof.
  intros Hs T [->|[-> _]%elem_of_replicate]%elem_of_cons; by eexists.
Qed.

Lemma storage_of_wf w T s : world_wf w → storage_of w T = Some s → sparse_set_wf s.
Proof.
  intros (_ & _ & Hsts). unfold storage_of.
  destruct (component_id_ w !! T) as [cid|]; [|done]. simpl.
  intros Hs. by apply Hsts in Hs as [_ ?].
Qed.

(** *** What each member function does to the state *)

Lemma get_component_inv T e w :
  ∃ cid w1 s, touched w w1 ∧ storage_of w1 T = Some s ∧
    component_id_ w1 !! T = Some cid ∧
    get_component T e w =
      match operator_index s e with Some v => Ok v w1 | None => Undefined end.
Proof.
  destruct (get_storage_settles T w) as (cid & w1 & s & Hget & Ht & Hid & Hs).
  exists cid, w1, s. split_and!; [done| |done|].
  - by eapply size_of_storage.
  - unfold get_component, bind, deref. rewrite Hget, Hs. by case_match.
Qed.

Lemma try_get_component_spec T e w :
  ∃ r w', try_get_component T e w = Ok r w' ∧ touched w w' ∧
    registry_state w' = registry_state w.
Proof.
  destruct (get_component_id_spec T w) as (id & w1 & Hget & Hid & Hreg & _).
  pose proof (touched_get_component_id _ _ _ _ Hget) as Ht.
  unfold try_get_component, bind. rewrite Hget.
  destruct (component_storages_ w1 !! id) as [s|]; [|by eauto].
  destruct (has s e) eqn:Hhas; [|by eauto].
  destruct (has_operator_index _ _ Hhas) as [v ->]. eauto.
Qed.

Lemma each_spec T w :
  ∃ cid w' s, touched w w' ∧ component_id_ w' !! T = Some cid ∧
    component_storages_ w' !! cid = Some s ∧
    each T w = Ok ((λ item, (index item, payload item)) <$> range s) w'.
Proof.
  destruct (get_storage_settles T w) as (cid & w1 & s & Hget & Ht & Hid & Hs).
  exists cid, w1, s. split_and!; try done.
  unfold each, bind, deref. by rewrite Hget, Hs.
Qed.

Lemma view_spec first_t copies w :
  ∃ cid w' sD calls, get_storage first_t w = Ok cid w' ∧
    touched w w' ∧
    component_id_ w' !! first_t = Some cid ∧
    component_storages_ w' !! cid = Some sD ∧
    view first_t copies w = Ok calls w' ∧
    calls.*1 = filter (λ e, all_present w' (view_types first_t copies) e = true)
                      (index <$> range sD).
Proof.
  destruct (view_driver_spec first_t copies w)
    as (cid & w' & sD & Hget & Hdrv & Ht & Hid & HsD).
  destruct (size_of_storage _ _ _ _ Hid HsD) as [Hst _].
  destruct (view_loop_settled (view_types first_t copies) (range sD) w'
              (settled_view_types _ _ copies _ Hst))
    as (calls & Hloop & Hcalls).
  exists cid, w', sD, calls. split_and!; try done.
  unfold view, bind, deref. by rewrite Hdrv, HsD.
Qed.

Lemma add_component_inv T e v w :
  ∃ cid w1 s, touched w w1 ∧ component_id_ w1 !! T = Some cid ∧
    component_storages_ w1 !! cid = Some s ∧
    get_storage T w = Ok cid w1 ∧
    add_component T e v w =
      match emplace e v s with
      | Ok _ s' => Ok tt (set_storages (<[cid := s']> (component_storages_ w1)) w1)
      | Raise s' => Raise (set_storages (<[cid := s']> (component_storages_ w1)) w1)
      | Undefined => Undefined
      end.
Proof.
  destruct (get_storage_settles T w) as (cid & w1 & s & Hget & Ht & Hid & Hs).
  exists cid, w1, s. split_and!; try done.
  unfold add_component, bind, on_storage. rewrite Hget, Hs.
  by destruct (emplace e v s) as [[] ?|?|].
Qed.

Lemma remove_component_inv T e w :
  ∃ cid w1 s, touched w w1 ∧ component_id_ w1 !! T = Some cid ∧
    component_storages_ w1 !! cid = Some s ∧
    remove_component T e w =
      Ok tt (set_storages (<[cid := erase e s]> (component_storages_ w1)) w1).
Proof.
  destruct (get_storage_settles T w) as (cid & w1 & s & Hget & Ht & Hid & Hs).
  exists cid, w1, s. split_and!; try done.
  unfold remove_component, bind, on_storage. by rewrite Hget, Hs.
Qed.

(** Replacing a storage by one that satisfies the class invariant. *)
Lemma set_storage_wf w cid s s' :
  world_wf w → component_storages_ w !! cid = Some s → sparse_set_wf s' →
  world_wf (set_storages (<[cid := s']> (component_storages_ w)) w).
Proof.
  intros (Hlt & Hinj & Hsts) Hs Hwf'. split_and!; simpl; [done|done|].
  intros c s0. rewrite lookup_insert. case_decide; [|apply Hsts].
  intros [= <-]. subst. split; [|done]. by eapply Hsts.
Qed.

(** A call that only reads: it returns or is undefined, and when it
    returns it has made first uses at most. *)
Lemma forget_touched {A} (m : M V A) w :
  (∀ a w', m w = Ok a w' → touched w w') → (∀ w', m w ≠ Raise w') →
  ∀ w', (forget m w = Ok tt w' ∨ forget m w = Raise w') → touched w w'.
Proof.
  intros Hok Hraise w'. unfold forget, bind, ret.
  destruct (m w) as [a w1|w1|] eqn:Hm.
  - intros [[= <-]|[=]]. by eapply Hok.
  - by destruct (Hraise w1).
  - by intros [|].
Qed.

Lemma reads_touched (o : op V) w w' :
  match o with
  | HasComponent _ _ | GetComponent _ _ | TryGetComponent _ _
  | HasAll _ _ | Each _ | View _ _ | NewEntity => True
  | _ => False
  end →
  call o w = Ok tt w' ∨ call o w = Raise w' →
  o = NewEntity ∨ touched w w'.
Proof.
  destruct o as [|e|T e v|T e|T e|T e|T e|Ts e|T|first_t copies]; simpl;
    intros []; try (by left); intros Hcall; right; revert w' Hcall;
    apply forget_touched.
  - intros b w'. destruct (has_component_spec T e w) as (b' & w'' & -> & Ht & _).
    by intros [= <- <-].
  - intros w'. by destruct (has_component_spec T e w) as (b' & w'' & -> & _).
  - intros v w'. destruct (get_component_inv T e w) as (cid & w1 & s & Ht & _ & _ & ->).
    case_match; [|done]. by intros [= <- <-].
  - intros w'. destruct (get_component_inv T e w) as (cid & w1 & s & Ht & _ & _ & ->).
    by case_match.
  - intros r w'. destruct (try_get_component_spec T e w) as (r' & w'' & -> & Ht & _).
    by intros [= <- <-].
  - intros w'. by destruct (try_get_component_spec T e w) as (r' & w'' & -> & _).
  - intros b w'. destruct (has_all_spec Ts e w) as (b' & w'' & -> & Ht & _).
    by intros [= <- <-].
  - intros w'. by destruct (has_all_spec Ts e w) as (b' & w'' & -> & _).
  - intros c w'. destruct (each_spec T w) as (cid & w'' & s & Ht & _ & _ & ->).
    by intros [= <- <-].
  - intros w'. by destruct (each_spec T w) as (cid & w'' & s & Ht & _ & _ & ->).
  - intros c w'. destruct (view_spec first_t copies w)
      as (cid & w'' & sD & calls & _ & Ht & _ & _ & -> & _).
    by intros [= <- <-].
  - intros w'. by destruct (view_spec first_t copies w)
      as (cid & w'' & sD & calls & _ & Ht & _ & _ & -> & _).
Qed.

Lemma set_storages_same w : set_storages (component_storages_ w) w = w.
Proof. by destruct w. Qed.

(** What a call does to the free list. *)
Lemma call_free_entities (o : op V) w w' :
  call o w = Ok tt w' ∨ call o w = Raise w' →
  free_entities_ w' =
    match o with
    | NewEntity => tail (free_entities_ w)
    | RemoveEntity e => e :: free_entities_ w
    | _ => free_entities_ w
    end.
Proof.
  intros Hcall.
  destruct o as [|e|T e v|T e|T e|T e|T e|Ts e|T|first_t copies];
    try (pose proof (λ H, reads_touched _ w w' H Hcall) as Hr;
         destruct (Hr I) as [[=]|Ht];
         by destruct (touched_facts _ _ Ht) as (? & _)).
  - simpl in Hcall. unfold forget, bind, new_entity, ret in Hcall.
    destruct (free_entities_ w); by destruct Hcall as [[= <-]|[=]].
  - simpl in Hcall. unfold remove_entity in Hcall.
    by destruct Hcall as [[= <-]|[=]].
  - simpl in Hcall.
    destruct (add_component_inv T e v w) as (cid & w1 & s & Ht & _ & _ & _ & Heq).
    rewrite Heq in Hcall. destruct (touched_facts _ _ Ht) as (<- & _).
    destruct (emplace e v s) as [[] s'|s'|];
      by destruct Hcall as [[= <-]|[= <-]].
  - simpl in Hcall.
    destruct (remove_component_inv T e w) as (cid & w1 & s & Ht & _ & _ & Heq).
    rewrite Heq in Hcall. destruct (touched_facts _ _ Ht) as (<- & _).
    by destruct Hcall as [[= <-]|[=]].
Qed.

(** Every call keeps the invariant of the registry. *)
Lemma call_wf (o : op V) w w' :
  world_wf w → call o w = Ok tt w' ∨ call o w = Raise w' → world_wf w'.
Proof.
  intros Hwf Hcall.
  destruct o as [|e|T e v|T e|T e|T e|T e|Ts e|T|first_t copies];
    try (pose proof (λ H, reads_touched _ w w' H Hcall) as Hr;
         destruct (Hr I) as [[=]|Ht];
         destruct (touched_facts _ _ Ht) as (_ & _ & _ & _ & _ & Hw);
         by destruct (Hw Hwf)).
  - simpl in Hcall. unfold forget, bind, new_entity, ret in Hcall.
    destruct Hwf as (Hlt & Hinj & Hsts).
    destruct (free_entities_ w); destruct Hcall as [[= <-]|[=]]; by split_and!.
  - simpl in Hcall. unfold remove_entity in Hcall.
    destruct Hcall as [[= <-]|[=]]. destruct Hwf as (Hlt & Hinj & Hsts).
    split_and!; simpl; [done|done|].
    intros cid s. rewrite lookup_fmap.
    destruct (component_storages_ w !! cid) as [s0|] eqn:Hs0; [|done].
    intros [= <-]. apply Hsts in Hs0 as [??]. split; [done|by apply erase_wf].
  - simpl in Hcall.
    destruct (add_component_inv T e v w) as (cid & w1 & s & Ht & Hid & Hs & _ & Heq).
    rewrite Heq in Hcall.
    destruct (touched_facts _ _ Ht) as (_ & _ & _ & _ & _ & Hw).
    destruct (Hw Hwf) as [Hwf1 _].
    assert (sparse_set_wf s) as Hwfs by (by eapply Hwf1).
    destruct (emplace e v s) as [[] s'|s'|] eqn:Hem.
    + destruct Hcall as [[= <-]|[=]]. eapply set_storage_wf; [done..|].
      by eapply emplace_wf.
    + destruct Hcall as [[=]|[= <-]]. eapply set_storage_wf; [done..|].
      by apply emplace_Raise in Hem as ->.
    + by destruct Hcall.
  - simpl in Hcall.
    destruct (remove_component_inv T e w) as (cid & w1 & s & Ht & Hid & Hs & Heq).
    rewrite Heq in Hcall. destruct Hcall as [[= <-]|[=]].
    destruct (touched_facts _ _ Ht) as (_ & _ & _ & _ & _ & Hw).
    destruct (Hw Hwf) as [Hwf1 _].
    eapply set_storage_wf; [done..|]. apply erase_wf. by eapply Hwf1.
Qed.

(** *** Membership is changed by [add_component] on the same type and
    entity only *)

Lemma present_set_storages w T T' cid s' e :
  world_wf w → component_id_ w !! T' = Some cid →
  present (set_storages (<[cid := s']> (component_storages_ w)) w) T e =
    if decide (T = T') then has s' e else present w T e.
Proof.
  intros (_ & Hinj & _) Hid. unfold present. simpl. case_decide as HT.
  - subst. by rewrite Hid, lookup_insert_eq.
  - destruct (component_id_ w !! T) as [c|] eqn:Hc; [|done].
    rewrite lookup_insert_ne; [done|]. intros ->. apply HT. by eapply Hinj.
Qed.

Lemma remove_entity_present e w T :
  world_wf w →
  present {| next_entity_ := next_entity_ w;
             next_component_id_ := next_component_id_ w;
             component_id_ := component_id_ w;
             free_entities_ := e :: free_entities_ w;
             component_storages_ := erase e <$> component_storages_ w |} T e
  = false.
Proof.
  intros (_ & _ & Hsts). unfold present. simpl.
  destruct (component_id_ w !! T) as [c|]; [|done]. rewrite lookup_fmap.
  destruct (component_storages_ w !! c) as [s|] eqn:Hs; [|done]. simpl.
  apply erase_has_same. by apply Hsts in Hs as [_ ?].
Qed.

Lemma call_present_frame (o : op V) T e w w' :
  world_wf w → ¬ adds T e o →
  call o w = Ok tt w' ∨ call o w = Raise w' →
  present w T e = false → present w' T e = false.
Proof.
  intros Hwf Hadd Hcall Hp.
  destruct o as [|e'|T' e' v|T' e'|T' e'|T' e'|T' e'|Ts e'|T'|first_t copies];
    try (pose proof (λ H, reads_touched _ w w' H Hcall) as Hr;
         destruct (Hr I) as [[=]|Ht];
         destruct (touched_facts _ _ Ht) as (_ & _ & _ & _ & _ & Hw);
         destruct (Hw Hwf) as [_ Hp']; by rewrite Hp').
  - simpl in Hcall. unfold forget, bind, new_entity, ret in Hcall.
    destruct (free_entities_ w); by destruct Hcall as [[= <-]|[=]].
  - simpl in Hcall. unfold remove_entity in Hcall.
    destruct Hcall as [[= <-]|[=]]. destruct Hwf as (_ & _ & Hsts).
    unfold present in *. simpl.
    destruct (component_id_ w !! T) as [c|]; [|done]. rewrite lookup_fmap.
    destruct (component_storages_ w !! c) as [s|] eqn:Hs; [|done]. simpl.
    apply Hsts in Hs as [_ Hwfs].
    destruct (decide (e = e')) as [->|Hne]; [by apply erase_has_same|].
    by rewrite erase_has_other.
  - simpl in Hcall, Hadd.
    destruct (add_component_inv T' e' v w) as (cid & w1 & s & Ht & Hid & Hs & _ & Heq).
    rewrite Heq in Hcall.
    destruct (touched_facts _ _ Ht) as (_ & _ & _ & _ & _ & Hw).
    destruct (Hw Hwf) as [Hwf1 Hp1]. rewrite <- Hp1 in Hp.
    assert (sparse_set_wf s) as Hwfs by (by eapply Hwf1).
    assert (T = T' → has s e = false) as Hse.
    { intros ->. rewrite <- Hp. unfold present. by rewrite Hid, Hs. }
    destruct (emplace e' v s) as [[] s'|s'|] eqn:Hem.
    + destruct Hcall as [[= <-]|[=]].
      rewrite (present_set_storages _ _ _ _ _ _ Hwf1 Hid). case_decide; [|done].
      subst. rewrite (emplace_has_other e e' v s s'); [by apply Hse|done..|].
      intros ->. by apply Hadd.
    + destruct Hcall as [[=]|[= <-]]. apply emplace_Raise in Hem as ->.
      rewrite (present_set_storages _ _ _ _ _ _ Hwf1 Hid). case_decide; [|done].
      by apply Hse.
    + by destruct Hcall.
  - simpl in Hcall.
    destruct (remove_component_inv T' e' w) as (cid & w1 & s & Ht & Hid & Hs & Heq).
    rewrite Heq in Hcall. destruct Hcall as [[= <-]|[=]].
    destruct (touched_facts _ _ Ht) as (_ & _ & _ & _ & _ & Hw).
    destruct (Hw Hwf) as [Hwf1 Hp1]. rewrite <- Hp1 in Hp.
    assert (sparse_set_wf s) as Hwfs by (by eapply Hwf1).
    rewrite (present_set_storages _ _ _ _ _ _ Hwf1 Hid). case_decide; [|done].
    subst. destruct (decide (e = e')) as [->|Hne]; [by apply erase_has_same|].
    rewrite erase_has_other by done. rewrite <- Hp. unfold present. by rewrite Hid, Hs.
Qed.

Lemma run_present_frame ops T e w w' :
  world_wf w → Forall (λ o, ¬ adds T e o) ops → run ops w = Some w' →
  present w T e = false → world_wf w' ∧ present w' T e = false.
Proof.
  intros Hwf Hops. revert w Hwf.
  induction Hops as [|o ops Ho _ IH]; intros w Hwf; simpl.
  - by intros [= <-].
  - destruct (call o w) as [[] w1|w1|] eqn:Hcall; [..|done]; intros Hrun Hp;
      (apply (IH w1); [eapply call_wf; eauto|done|eapply call_present_frame; eauto]).
Qed.

(** *** First uses by read-only queries *)

Lemma absent_storage_present w T e : storage_of w T = None → present w T e = false.
Proof.
  unfold storage_of, present. destruct (component_id_ w !! T); [|done].
  simpl. by intros ->.
Qed.

(** A storage found after first uses for a type that had none is new. *)
Lemma touched_first_use w w' T s :
  world_wf w → touched w w' → storage_of w T = None → storage_of w' T = Some s →
  s = sparse_set_new ∧
  ∃ cid, component_id_ w' !! T = Some cid ∧
         component_storages_ w !! cid = None ∧
         component_storages_ w' !! cid = Some sparse_set_new.
Proof.
  intros Hwf Ht Hnone Hs'.
  destruct (touched_facts _ _ Ht) as (_ & _ & _ & _ & Hnew & _).
  destruct (touched_fresh _ _ Ht) as [_ Hfresh].
  unfold storage_of in Hs', Hnone.
  destruct (component_id_ w' !! T) as [cid|] eqn:Hid; [|done]. simpl in Hs'.
  destruct (Hnew _ _ Hs') as [Hs|[Hs ->]].
  - destruct (Hfresh _ _ Hid) as [Hid0|[_ Hge]].
    + rewrite Hid0 in Hnone. simpl in Hnone. congruence.
    + destruct Hwf as (_ & _ & Hsts). apply Hsts in Hs as [? _]. lia.
  - split; [done|]. eauto.
Qed.

Lemma try_get_component_absent T e w :
  world_wf w → present w T e = false →
  ∃ w', try_get_component T e w = Ok None w' ∧
        registry_state w' = registry_state w.
Proof.
  intros Hwf Hp.
  destruct (get_component_id_spec T w) as (id & w1 & Hget & Hid & Hreg & _).
  rewrite <- (get_component_id_present _ _ _ _ Hwf Hget) in Hp.
  unfold try_get_component, bind. rewrite Hget.
  unfold present in Hp. rewrite Hid in Hp.
  destruct (component_storages_ w1 !! id) as [s|]; [|by eauto].
  rewrite Hp. eauto.
Qed.

Lemma world_new_wf : world_wf (@world_new V).
Proof. split_and!; simpl; intros *; by rewrite lookup_empty. Qed.

Lemma run_wf ops w w' : world_wf w → run ops w = Some w' → world_wf w'.
Proof.
  revert w. induction ops as [|o ops IH]; intros w Hwf; simpl.
  - by intros [= <-].
  - destruct (call o w) as [[] w1|w1|] eqn:Hcall; [..|done];
      apply IH; eapply call_wf; eauto.
Qed.

(** Every reachable state satisfies the invariant. *)
Lemma reachable_wf w : reachable w → world_wf w.
Proof. intros [ops Hrun]. eapply run_wf; [apply world_new_wf|done]. Qed.

End RegistryFacts.

(** * The claims *)

Section Claims.

Context {V : Type}.
Implicit Types (w : world V) (T : ctype) (e cid : N) (s : sparse_set V) (v : V).

(** C9: on a sparse set that satisfies its class invariant, [erase(e)]
    leaves the set as it is when [e] is absent and otherwise removes [e]
    and lowers the live count by one; a second [erase(e)] right after the
    first leaves the whole state (sparse array, dense array and count, so
    membership, live count and every payload) as the first left it. *)
Theorem erase_idempotent s e :
  sparse_set_wf s →
  (if has s e
   then has (erase e s) e = false ∧ n (erase e s) + 1 = n s
   else erase e s = s) ∧
  erase e (erase e s) = erase e s.
Proof.
  intros Hwf. split.
  - destruct (has s e) eqn:Hhas; [|by apply erase_absent].
    split; [by apply erase_has_same|].
    destruct (erase_present_inv e s Hwf Hhas)
      as (i0 & d0 & _ & Hlt & _ & _ & [[_ ->]|(_ & last & _ & _ & _ & ->)]);
      simpl; lia.
  - apply erase_absent. by apply erase_has_same.
Qed.

(** C3 (the code at the failing input): after [emplace(599999, v)] on a
    new set the sparse array has 600000 slots, and [emplace(700000, v)]
    then throws although index 700000 fits within [max_capacity]. *)
Theorem emplace_raises_below_capacity v :
  ∃ s1 : sparse_set V,
    emplace 599999 v sparse_set_new = Ok tt s1 ∧
    vec_size (sparse_ s1) = 600000 ∧
    700000 < max_capacity ∧
    emplace 700000 v s1 = Raise s1.
Proof.
  assert (vec_size (sparse_ (@sparse_set_new V)) = 1024) as Hsz by reflexivity.
  destruct (emplace 599999 v sparse_set_new) as [[] s1|s1|] eqn:Hem.
  - exists s1. split; [reflexivity|].
    assert (vec_size (sparse_ s1) = 600000) as Hsz1.
    { apply emplace_Ok_inv in Hem as (s0 & Hg & Hcase).
      apply grow_sparse_to_size in Hg as [_ Hg]; [|reflexivity].
      rewrite Hsz in Hg. specialize (Hg ltac:(discriminate)).
      destruct Hcase as [(? & ? & _ & _ & _ & ->)|(? & _ & _ & _ & _ & _ & _ & ->)];
        cbn [sparse_]; unfold vec_size in *; rewrite ?length_insert, Hg;
        vm_compute; reflexivity. }
    split_and!; [exact Hsz1|reflexivity|].
    destruct (proj2 (emplace_Raise_iff 700000 v s1)) as [s' Hr].
    { rewrite Hsz1. vm_compute. split; [discriminate|reflexivity]. }
    by rewrite Hr, (emplace_Raise _ _ _ _ Hr).
  - assert (∃ s', emplace 599999 v sparse_set_new = Raise s') as Hex by eauto.
    apply emplace_Raise_iff in Hex as [_ Hbig].
    rewrite Hsz in Hbig. vm_compute in Hbig. discriminate.
  - exfalso. revert Hem. apply emplace_defined; [apply sparse_set_new_wf|reflexivity].
Qed.

(** C8: when [add_component<T>(e, v)] returns, [get_component<T>(e)]
    called right after returns [v] and changes nothing, whether the add
    wrote a new entry or overwrote the payload of an existing one. *)
Theorem add_then_get T e v w w' :
  add_component T e v w = Ok tt w' → get_component T e w' = Ok v w'.
Proof.
  destruct (add_component_inv T e v w) as (cid & w1 & s & _ & Hid & Hs & _ & ->).
  destruct (emplace e v s) as [[] s'|s'|] eqn:Hem; [|done..].
  intros [= <-]. apply get_component_settled with (s := s').
  - unfold storage_of. simpl. rewrite Hid. simpl. apply lookup_insert_eq.
  - by eapply emplace_operator_index.
Qed.

(** C4 (as amended): when [add_component<T>(e, v)] throws in a reachable
    state, the free list, the entity counter and every storage that was
    registered are as before the call, and [has_component] answers as
    before for every type and entity; the storage map is as before the
    call, or it holds one more storage, an empty one, registered for [T]
    by [get_storage] before [emplace] threw. *)
Theorem add_component_raise_frame T e v w w' :
  reachable w → add_component T e v w = Raise w' →
  free_entities_ w' = free_entities_ w ∧
  next_entity_ w' = next_entity_ w ∧
  (component_storages_ w' = component_storages_ w ∨
   ∃ cid, component_id_ w' !! T = Some cid ∧
          component_storages_ w !! cid = None ∧
          component_storages_ w' =
            <[cid := sparse_set_new]> (component_storages_ w)) ∧
  ∀ T' e', present w' T' e' = present w T' e'.
Proof.
  intros Hwf%reachable_wf.
  destruct (add_component_inv T e v w) as (cid & w1 & s & Ht & Hid & Hs & Hget & ->).
  destruct (emplace e v s) as [[] s'|s'|] eqn:Hem; [done| |done].
  apply emplace_Raise in Hem as ->. rewrite insert_id, set_storages_same by done.
  intros [= <-].
  destruct (get_storage_spec T w)
    as (cid' & w'' & Heq & _ & Hfree & Hne & _ & _ & _ & Hst & _).
  rewrite Hget in Heq. injection Heq as <- <-.
  destruct (touched_facts _ _ Ht) as (_ & _ & _ & _ & _ & Hw).
  destruct (Hw Hwf) as [_ Hp].
  split_and!; [done|done| |done].
  destruct Hst as [(s' & _ & ->)|[Hnone ->]]; [by left|right]. eauto.
Qed.

(** C5 (as amended): [remove_entity] pushes its argument without any
    check; in a program whose every [remove_entity(e)] is called while [e]
    is not on the free list, a free list without a repeated id stays
    without one. *)
Theorem free_list_NoDup ops w w' :
  NoDup (free_entities_ w) → frees_once ops w = true → run ops w = Some w' →
  NoDup (free_entities_ w').
Proof.
  revert w. induction ops as [|o ops IH]; intros w Hnd; simpl.
  - by intros _ [= <-].
  - intros [Hguard Hrest]%andb_true_iff Hrun.
    assert (∀ w1, call o w = Ok tt w1 ∨ call o w = Raise w1 →
                  NoDup (free_entities_ w1)) as Hstep.
    { intros w1 Hcall. rewrite (call_free_entities _ _ _ Hcall).
      destruct o; try done.
      - destruct (free_entities_ w); [done|]. by apply NoDup_cons in Hnd as [_ ?].
      - apply NoDup_cons. split; [|done]. by apply bool_decide_eq_true in Hguard. }
    destruct (call o w) as [[] w1|w1|]; [..|done];
      (eapply IH; [apply Hstep; auto|done..]).
Qed.

(** C6 (as amended): from a state whose free list has no repeated id and
    only ids not above [next_entity_], and as long as the 64-bit counter
    does not wrap, the ids returned by [k] calls of [new_entity()] in a
    row are pairwise distinct. *)
Theorem new_entities_distinct k w ids w' :
  NoDup (free_entities_ w) →
  (∀ x, x ∈ free_entities_ w → x ≤ next_entity_ w) →
  next_entity_ w + N.of_nat k < word →
  new_entities k w = Ok ids w' →
  NoDup ids.
Proof.
  intros Hnd Hle Hk Hnew.
  cut (NoDup ids ∧ ∀ x, x ∈ ids →
         x ∈ free_entities_ w ∨ next_entity_ w < x); [tauto|].
  revert w ids w' Hnd Hle Hk Hnew. induction k as [|k IH]; intros w ids w'; simpl.
  - intros _ _ _ [= <- <-]. split; [constructor|]. intros x Hx. by apply elem_of_nil in Hx.
  - intros Hnd Hle Hk. unfold bind, new_entity, ret.
    destruct (free_entities_ w) as [|e free] eqn:Hfree.
    + rewrite N.mod_small by lia.
      destruct (new_entities k _) as [es w1| |] eqn:Hes; [|done..].
      intros [= <- <-].
      apply IH in Hes as [Hnd' Hin]; simpl; [|constructor| |lia].
      * simpl in Hin. split.
        -- apply NoDup_cons. split; [|done].
           intros [Hx|Hx]%Hin; [by apply elem_of_nil in Hx|lia].
        -- intros x [->|[Hx|Hx]%Hin]%elem_of_cons;
             [right; lia|by apply elem_of_nil in Hx|right; lia].
      * intros x Hx. by apply elem_of_nil in Hx.
    + destruct (new_entities k _) as [es w1| |] eqn:Hes; [|done..].
      intros [= <- <-]. apply NoDup_cons in Hnd as [He Hnd].
      apply IH in Hes as [Hnd' Hin]; simpl; [|done| |lia].
      * simpl in Hin. split.
        -- apply NoDup_cons. split; [|done].
           intros [Hx|Hx]%Hin; [done|].
           specialize (Hle e ltac:(left)). lia.
        -- intros x [->|[Hx|Hx]%Hin]%elem_of_cons;
             [left; left|left; by right|by right].
      * intros x Hx. apply Hle. by right.
Qed.

(** C7: from a reachable state, after [remove_entity(e)] and any further
    calls that do not add a component of type [T] to [e] (calls of
    [new_entity()], which may hand [e] out again, among them),
    [has_component<T>(e)] returns false. *)
Theorem removed_entity_stays_bare T e ops w w' :
  reachable w →
  Forall (λ o, ¬ adds T e o) ops →
  run (RemoveEntity e :: ops) w = Some w' →
  ∃ w'', has_component T e w' = Ok false w''.
Proof.
  intros Hwf%reachable_wf Hops Hrun. simpl in Hrun.
  assert (world_wf {| next_entity_ := next_entity_ w;
                      next_component_id_ := next_component_id_ w;
                      component_id_ := component_id_ w;
                      free_entities_ := e :: free_entities_ w;
                      component_storages_ := erase e <$> component_storages_ w |})
    as Hwf1.
  { eapply (call_wf (RemoveEntity e)); [exact Hwf|]. by left. }
  destruct (run_present_frame _ T e _ _ Hwf1 Hops Hrun) as [Hwf' Hp].
  { by apply remove_entity_present. }
  destruct (has_component_spec T e w') as (b & w'' & Hhas & _ & _ & Hb).
  exists w''. by rewrite Hhas, (Hb Hwf'), Hp.
Qed.

(** C10: in a reachable state where [T] has no storage, [each<T>] and
    [view<T, ...>] (in every instantiation that builds) return, having
    called the visitor on nothing, with an empty storage registered for
    [T] under a key that held no storage before, so the storage map has
    changed; [has_component<T>(e)] and [try_get_component<T>(e)] return
    false and [nullptr] and leave the registry object as it was. *)
Theorem queries_register_storages T copies e w :
  reachable w → storage_of w T = None →
  (∃ w' cid, each T w = Ok [] w' ∧
     component_id_ w' !! T = Some cid ∧
     component_storages_ w !! cid = None ∧
     component_storages_ w' = <[cid := sparse_set_new]> (component_storages_ w)) ∧
  (∃ w' cid, view T copies w = Ok [] w' ∧
     component_id_ w' !! T = Some cid ∧
     component_storages_ w !! cid = None ∧
     component_storages_ w' = <[cid := sparse_set_new]> (component_storages_ w)) ∧
  (∃ w', has_component T e w = Ok false w' ∧
     registry_state w' = registry_state w) ∧
  (∃ w', try_get_component T e w = Ok None w' ∧
     registry_state w' = registry_state w).
Proof.
  intros Hwf%reachable_wf Hnone.
  pose proof (absent_storage_present w T e Hnone) as Hp.
  assert (∃ w' cid, get_storage T w = Ok cid w' ∧
            component_id_ w' !! T = Some cid ∧
            component_storages_ w !! cid = None ∧
            component_storages_ w' =
              <[cid := sparse_set_new]> (component_storages_ w))
    as (w' & cid & Hget & Hid & Hold & Hnew).
  { destruct (get_storage_spec T w)
      as (cid & w' & Hget & Hid & _ & _ & _ & _ & _ & Hst & _).
    pose proof (touched_get_storage _ _ _ _ Hget) as Ht.
    exists w', cid. destruct Hst as [(s & Hs & Hsame)|[Hold Hnew]]; [|done].
    exfalso.
    destruct (touched_first_use w w' T s Hwf Ht Hnone) as (_ & c & Hc & Hcold & _).
    { unfold storage_of. rewrite Hid. simpl. by rewrite Hsame. }
    congruence. }
  assert (component_storages_ w' !! cid = Some sparse_set_new) as Hs.
  { by rewrite Hnew, lookup_insert_eq. }
  split_and!.
  - exists w', cid. split_and!; [|done..].
    unfold each, bind, deref. by rewrite Hget, Hs.
  - exists w', cid. split_and!; [|done..].
    unfold view, view_driver, bind, deref. rewrite Hget.
    by rewrite (pick_smallest_same T cid sparse_set_new), Hs.
  - destruct (has_component_spec T e w) as (b & w1 & Hhas & _ & Hreg & Hb).
    exists w1. split; [|done]. by rewrite Hhas, (Hb Hwf), Hp.
  - by apply try_get_component_absent.
Qed.

End Claims.

(** * The claims on concrete programs *)

Lemma scenario1_reachable : reachable scenario1.
Proof. exists scenario1_program. vm_compute. reflexivity. Qed.

(** [emplace(2^64 - 1, v)] on a new set: [index + 1] wraps to 0, the sparse
    array is doubled to 2048 slots and [sparse_[index]] is written out of
    range. *)
Example emplace_wrapped_index_undefined :
  emplace npos 0 (@sparse_set_new N) = Undefined.
Proof. vm_compute. reflexivity. Qed.

(** Concrete scenario 2 of the specification. *)
Example scenario2_recycle :
  ∃ w1 w2 w3, remove_entity 2 scenario1 = Ok tt w1 ∧
    new_entity w1 = Ok 2 w2 ∧ has_component "Position" 2 w2 = Ok false w3.
Proof. eexists _, _, _. split_and!; vm_compute; reflexivity. Qed.

(** C4, the claim as stated fails: on a fresh registry
    [add_component<Mass>(2000000, 0)] throws and leaves a storage
    registered under key 1, where there was none. *)
Lemma add_component_raise_registers_storage :
  ∃ w' : world N,
    add_component "Mass" 2000000 0 world_new = Raise w' ∧
    component_storages_ (@world_new N) !! 1 = None ∧
    component_storages_ w' !! 1 = Some sparse_set_new ∧
    registry_state w' ≠ registry_state world_new.
Proof.
  eexists. split_and!; [vm_compute; reflexivity..|].
  intros H. apply (f_equal (λ r, r.2 !! 1)) in H. vm_compute in H. discriminate.
Qed.

Lemma add_component_raise_frame_witness :
  reachable scenario1 ∧
  add_component "Mass" 2000000 0 scenario1 = Raise scenario1_failed_add ∧
  (free_entities_ scenario1_failed_add = free_entities_ scenario1 ∧
   next_entity_ scenario1_failed_add = next_entity_ scenario1 ∧
   (component_storages_ scenario1_failed_add = component_storages_ scenario1 ∨
    ∃ cid, component_id_ scenario1_failed_add !! "Mass" = Some cid ∧
           component_storages_ scenario1 !! cid = None ∧
           component_storages_ scenario1_failed_add =
             <[cid := sparse_set_new]> (component_storages_ scenario1)) ∧
   ∀ T' e', present scenario1_failed_add T' e' = present scenario1 T' e').
Proof.
  split; [|split].
  - exists scenario1_program. vm_compute. reflexivity.
  - vm_compute. reflexivity.
  - apply (add_component_raise_frame "Mass" 2000000 0).
    + exists scenario1_program. vm_compute. reflexivity.
    + vm_compute. reflexivity.
Defined.

(** C5, the claim as stated fails: two calls of [remove_entity(1)] leave
    id 1 on the free list twice. *)
Lemma double_free_duplicates :
  run double_free_program world_new = Some double_free ∧
  free_entities_ double_free = [1; 1] ∧
  ¬ NoDup (free_entities_ double_free).
Proof.
  split_and!; [vm_compute; reflexivity..|].
  intros Hnd. apply NoDup_cons in Hnd as [Hnd _]. apply Hnd. left.
Qed.

Lemma free_list_NoDup_witness :
  NoDup (free_entities_ scenario1) ∧
  frees_once free_program scenario1 = true ∧
  run free_program scenario1 = Some freed ∧
  NoDup (free_entities_ freed).
Proof.
  split_and!.
  - apply NoDup_nil_2.
  - vm_compute. reflexivity.
  - vm_compute. reflexivity.
  - apply (free_list_NoDup free_program scenario1).
    + apply NoDup_nil_2.
    + vm_compute. reflexivity.
    + vm_compute. reflexivity.
Defined.

(** C6, the claim as stated fails: [double_free] is reachable, and two
    calls of [new_entity()] in a row return id 1 twice there. *)
Lemma double_free_reissues_id :
  reachable double_free ∧
  ∃ w', new_entities 2 double_free = Ok [1; 1] w' ∧ ¬ NoDup [1; 1].
Proof.
  split.
  - exists double_free_program. vm_compute. reflexivity.
  - eexists. split; [vm_compute; reflexivity|].
    intros Hnd. apply NoDup_cons in Hnd as [Hnd _]. apply Hnd. left.
Qed.

(** Removing an id that was never handed out has the same effect: id 1 is
    popped from the free list and then minted by the counter. *)
Example unminted_free_reissues_id :
  ∃ w w', run [RemoveEntity 1] (@world_new N) = Some w ∧
          new_entities 2 w = Ok [1; 1] w'.
Proof. eexists _, _. split; vm_compute; reflexivity. Qed.

Lemma new_entities_distinct_witness :
  NoDup (free_entities_ freed) ∧
  (∀ x, x ∈ free_entities_ freed → x ≤ next_entity_ freed) ∧
  next_entity_ freed + N.of_nat 4 < word ∧
  (∃ w', new_entities 4 freed = Ok [1; 3; 4; 5] w') ∧
  NoDup [1; 3; 4; 5].
Proof.
  assert (NoDup (free_entities_ freed)) as Hnd.
  { change (NoDup [1; 3]). apply NoDup_cons. split; [|apply NoDup_singleton].
    intros H%list_elem_of_singleton. discriminate. }
  assert (∀ x, x ∈ free_entities_ freed → x ≤ next_entity_ freed) as Hle.
  { change (∀ x, x ∈ [1; 3] → x ≤ 3).
    intros x [->|[->|H]%elem_of_cons]%elem_of_cons; [lia|lia|].
    by apply elem_of_nil in H. }
  split_and!; [exact Hnd|exact Hle|reflexivity|eexists; vm_compute; reflexivity|].
  eapply (new_entities_distinct 4 freed); [exact Hnd|exact Hle|reflexivity|].
  vm_compute. reflexivity.
Defined.

Lemma removed_entity_stays_bare_witness :
  reachable scenario1 ∧
  Forall (λ o, ¬ adds "Position" 2 o) recycle_program ∧
  run (RemoveEntity 2 :: recycle_program) scenario1 = Some recycled ∧
  ∃ w'', has_component "Position" 2 recycled = Ok false w''.
Proof.
  assert (Forall (λ o : op N, ¬ adds "Position" 2 o) recycle_program) as Hops.
  { repeat constructor; simpl; try tauto; intros [H1 H2]; discriminate. }
  split_and!.
  - exists scenario1_program. vm_compute. reflexivity.
  - exact Hops.
  - vm_compute. reflexivity.
  - apply (removed_entity_stays_bare "Position" 2 recycle_program scenario1).
    + exists scenario1_program. vm_compute. reflexivity.
    + exact Hops.
    + vm_compute. reflexivity.
Defined.

Lemma add_then_get_witness :
  add_component "Position" 2 99 scenario1 = Ok tt scenario1_overwritten ∧
  get_component "Position" 2 scenario1_overwritten = Ok 99 scenario1_overwritten.
Proof.
  split.
  - vm_compute. reflexivity.
  - apply add_then_get with (w := scenario1). vm_compute. reflexivity.
Defined.

Lemma erase_idempotent_witness :
  sparse_set_wf scenario1_positions ∧
  (if has scenario1_positions 1
   then has (erase 1 scenario1_positions) 1 = false ∧
        n (erase 1 scenario1_positions) + 1 = n scenario1_positions
   else erase 1 scenario1_positions = scenario1_positions) ∧
  erase 1 (erase 1 scenario1_positions) = erase 1 scenario1_positions.
Proof.
  split.
  - apply sparse_set_wfb_sound. vm_compute. reflexivity.
  - apply erase_idempotent. apply sparse_set_wfb_sound. vm_compute. reflexivity.
Defined.

Lemma queries_register_storages_witness :
  reachable scenario1 ∧
  storage_of scenario1 "Mass" = None ∧
  (∃ w' cid, each "Mass" scenario1 = Ok [] w' ∧
     component_id_ w' !! "Mass" = Some cid ∧
     component_storages_ scenario1 !! cid = None ∧
     component_storages_ w' =
       <[cid := sparse_set_new]> (component_storages_ scenario1)) ∧
  (∃ w' cid, view "Mass" 1 scenario1 = Ok [] w' ∧
     component_id_ w' !! "Mass" = Some cid ∧
     component_storages_ scenario1 !! cid = None ∧
     component_storages_ w' =
       <[cid := sparse_set_new]> (component_storages_ scenario1)) ∧
  (∃ w', has_component "Mass" 1 scenario1 = Ok false w' ∧
     registry_state w' = registry_state scenario1) ∧
  (∃ w', try_get_component "Mass" 1 scenario1 = Ok None w' ∧
     registry_state w' = registry_state scenario1).
Proof.
  split; [|split].
  - exists scenario1_program. vm_compute. reflexivity.
  - vm_compute. reflexivity.
  - apply (queries_register_storages "Mass" 1 1 scenario1).
    + exists scenario1_program. vm_compute. reflexivity.
    + vm_compute. reflexivity.
Defined.

(** * Further properties of the sparse set *)

Section SparseSetMore.

Context {V : Type}.
Implicit Types (s : sparse_set V) (e i : N) (v : V) (d : storage V).

(** [emplace(e, v)] keeps the payload of every other present entity. *)
Lemma emplace_payload_other e e' v s s' :
  sparse_set_wf s → emplace e v s = Ok tt s' → e' ≠ e → has s e' = true →
  operator_index s' e' = operator_index s e'.
Proof.
  intros Hwf (s1 & Hg & Hcase)%emplace_Ok_inv Hne Hhas.
  pose proof Hg as Hg'. apply grow_sparse_to_wf in Hg' as [Hwf1 Hhas1]; [|done].
  rewrite <- Hhas1 in Hhas.
  destruct Hwf as (_ & Hcap & _).
  apply grow_sparse_to_Ok in Hg as (Hd & Hn1 & [k Hsp] & _); [|done].
  apply has_true_iff in Hhas as (i & d & Hi & Hnp & Hlt & Hdi & Hidx).
  assert (operator_index s e' = Some (payload d)) as ->.
  { unfold operator_index. rewrite vec_at_lookup.
    rewrite (lookup_grown (sparse_ s) k _ i); [|by rewrite <- Hsp|done].
    simpl. by rewrite vec_at_lookup, <- Hd, Hdi. }
  unfold operator_index.
  destruct Hcase as [(i0 & d0 & Hhas0 & Hi0 & Hd0 & ->)
                    |(dense' & Hhas0 & He & Hlen & Hlen' & Hnew & Hold & ->)]; simpl.
  - rewrite vec_at_lookup, Hi. simpl. rewrite vec_at_lookup.
    rewrite list_lookup_insert_ne; [by rewrite Hdi|].
    intros Heq. apply N2Nat.inj in Heq. subst i0.
    apply has_true_iff in Hhas0 as (i' & d' & Hi' & _ & _ & Hd' & He').
    rewrite Hi0 in Hi'. injection Hi' as <-. congruence.
  - rewrite vec_at_lookup, list_lookup_insert_ne by lia. rewrite Hi. simpl.
    by rewrite vec_at_lookup, Hold, Hdi by lia.
Qed.

(** [erase(e)] keeps the payload of every other present entity, the one
    it moves included. *)
Lemma erase_payload_other e e' s :
  sparse_set_wf s → e' ≠ e → has s e' = true →
  operator_index (erase e s) e' = operator_index s e'.
Proof.
  intros Hwf Hne Hhas'. destruct (has s e) eqn:Hhas; [|by rewrite erase_absent].
  destruct (erase_present_inv e s Hwf Hhas)
    as (i0 & d0 & Hi0 & Hlt0 & Hd0 & He &
        [[Hlast ->]|(Hnl & last & Hlast & Hsl & Hle & ->)]);
    destruct Hwf as (Hn & Hcap & Hback);
    apply has_true_iff in Hhas' as (i & d & Hi & Hnp & Hlt & Hdi & Hidx);
    unfold operator_index; simpl; rewrite !vec_at_lookup.
  - rewrite list_lookup_insert_ne by lia. done.
  - rewrite list_lookup_insert_ne by lia. rewrite Hi. simpl.
    destruct (decide (index last = e')) as [Hm|Hm].
    + rewrite Hm, list_lookup_insert_eq by (by eapply lookup_lt_Some). simpl.
      rewrite !vec_at_lookup.
      rewrite list_lookup_insert_eq by (by eapply lookup_lt_Some).
      rewrite Hm, Hi in Hsl. injection Hsl as ->. by rewrite Hlast in Hdi |- *.
    + rewrite list_lookup_insert_ne by lia. rewrite Hi. simpl.
      rewrite !vec_at_lookup. rewrite list_lookup_insert_ne; [done|].
      intros Heq. apply N2Nat.inj in Heq. subst i0. congruence.
Qed.

(** X1: [emplace(e, v)] that returns has update semantics: the live count
    stays as it is when [e] was present and grows by one when it was not,
    and [e] is present afterwards with payload [v]. *)
Theorem emplace_size s e v s' :
  sparse_set_wf s → emplace e v s = Ok tt s' →
  n s' = (if has s e then n s else n s + 1) ∧
  has s' e = true ∧ operator_index s' e = Some v.
Proof.
  intros Hwf Hem. split_and!;
    [|by eapply emplace_has_same|by eapply emplace_operator_index].
  apply emplace_Ok_inv in Hem as (s1 & Hg & Hcase).
  pose proof Hg as Hg'. apply grow_sparse_to_wf in Hg' as [Hwf1 Hhas1]; [|done].
  pose proof (size_lt_npos s1 Hwf1) as Hnpos.
  destruct Hwf as (_ & Hcap & _).
  apply grow_sparse_to_Ok in Hg as (_ & Hn1 & _); [|done].
  rewrite <- Hhas1, <- Hn1.
  destruct Hcase as [(i0 & d0 & -> & _ & _ & ->)
                    |(dense' & -> & _ & _ & _ & _ & _ & ->)]; simpl; [done|].
  apply N.mod_small. unfold npos, word in *. lia.
Qed.

(** X2: [emplace(e, v)] leaves every other entity as it was: its
    membership is unchanged and, where it is present, so is its payload. *)
Theorem emplace_frame s e e' v s' :
  sparse_set_wf s → emplace e v s = Ok tt s' → e' ≠ e →
  has s' e' = has s e' ∧
  (has s e' = true → operator_index s' e' = operator_index s e').
Proof.
  intros Hwf Hem Hne. split.
  - by eapply emplace_has_other.
  - by eapply emplace_payload_other.
Qed.

(** X3: the swap-removal of [erase(e)] leaves every other entity as it
    was: its membership is unchanged and, where it is present, so is its
    payload, also for the entry moved into the freed slot. *)
Theorem erase_frame s e e' :
  sparse_set_wf s → e' ≠ e →
  has (erase e s) e' = has s e' ∧
  (has s e' = true → operator_index (erase e s) e' = operator_index s e').
Proof.
  intros Hwf Hne. split.
  - by apply erase_has_other.
  - by apply erase_payload_other.
Qed.

End SparseSetMore.

(** * Further properties of the sparse set, continued *)

Section SparseSetRange.

Context {V : Type}.
Implicit Types (s : sparse_set V) (e i : N) (v : V) (d : storage V).

(** X4: a new entity that is emplaced and then erased leaves the iterated
    range, and so the set of members with their payloads and order, as it
    was before the two calls. *)
Theorem emplace_erase_range s e v s' :
  sparse_set_wf s → has s e = false → emplace e v s = Ok tt s' →
  range (erase e s') = range s ∧ n (erase e s') = n s.
Proof.
  intros Hwf Hhas Hem.
  pose proof (emplace_wf _ _ _ _ Hwf Hem) as Hwf'.
  pose proof (emplace_has_same _ _ _ _ Hwf Hem) as Hhas'.
  apply emplace_Ok_inv in Hem as (s1 & Hg & Hcase).
  pose proof Hg as Hg'. apply grow_sparse_to_wf in Hg' as [Hwf1 Hhas1]; [|done].
  pose proof (size_lt_npos s1 Hwf1) as Hnpos.
  destruct Hwf as (_ & Hcap & _).
  apply grow_sparse_to_Ok in Hg as (Hd & Hn1 & _); [|done].
  destruct Hcase as [(i0 & d0 & Hc & _)
                    |(dense' & _ & He & Hlen & Hlen' & Hnew & Hold & ->)].
  { rewrite Hhas1 in Hc. congruence. }
  assert ((n s1 + 1) `mod` word = n s1 + 1) as Hmod.
  { apply N.mod_small. unfold npos, word in *. lia. }
  rewrite Hmod in *.
  destruct (erase_present_inv e _ Hwf' Hhas')
    as (i0 & d0' & Hi0 & Hlt0 & Hd0 & He0 &
        [[Hlast ->]|(Hnl & _)]); simpl in *.
  - unfold range. simpl. rewrite <- Hn1, <- Hd.
    replace (n s1 + 1 - 1) with (n s1) by lia. split; [|done].
    apply list_eq. intros j. destruct (decide (j < N.to_nat (n s1))%nat).
    + by rewrite !lookup_take_lt, Hold by lia.
    + by rewrite !lookup_take_ge by lia.
  - rewrite list_lookup_insert_eq in Hi0 by (unfold vec_size in *; lia).
    injection Hi0 as <-. lia.
Qed.

(** X5: on a set that satisfies the invariant, and for an entity other
    than [2^64 - 1], [emplace] returns exactly when the index is inside the
    sparse array or the grown array (twice the current size, or the index
    plus one if that is more) fits [max_capacity]; otherwise it throws,
    and a throw leaves the set as it was. *)
Theorem emplace_succeeds_iff s e v :
  sparse_set_wf s → e < npos →
  ((∃ s', emplace e v s = Ok tt s') ↔
   (e < vec_size (sparse_ s) ∨
    N.max (vec_size (sparse_ s) * 2) (e + 1) ≤ max_capacity)) ∧
  ((∃ s', emplace e v s = Ok tt s') ∨ emplace e v s = Raise s).
Proof.
  intros Hwf He.
  assert ((vec_size (sparse_ s) * 2) `mod` word = vec_size (sparse_ s) * 2) as Hm1.
  { destruct Hwf as (_ & Hcap & _). apply N.mod_small.
    unfold max_capacity, word in *. lia. }
  assert ((e + 1) `mod` word = e + 1) as Hm2.
  { apply N.mod_small. unfold npos, word in *. lia. }
  pose proof (emplace_Raise_iff e v s) as Hr. rewrite Hm1, Hm2 in Hr.
  pose proof (emplace_defined e v s Hwf He) as Hdef.
  destruct (emplace e v s) as [[] s'|s'|] eqn:Hem; [| |done].
  - split; [|eauto]. split; [|eauto]. intros _.
    destruct (N.lt_ge_cases e (vec_size (sparse_ s))) as [|Hge]; [by left|right].
    apply N.le_ngt. intros Hbig. destruct (proj2 Hr) as [? [=]]. by split.
  - pose proof (emplace_Raise _ _ _ _ Hem) as ->. split; [|by right].
    destruct (proj1 Hr) as [Hge Hbig]; [eauto|].
    split; [by intros [? [=]]|]. intros [?|?]; lia.
Qed.

(** X6: the order of iteration after [erase(e)] of a present entity: the
    range loses its last entry, which has taken the place of [e]'s entry
    (nothing else moves). *)
Theorem erase_moves_last s e :
  sparse_set_wf s → has s e = true →
  ∃ i back, vec_at (sparse_ s) e = Some i ∧ last (range s) = Some back ∧
    range (erase e s) =
      take (N.to_nat (n s) - 1) (<[N.to_nat i := back]> (range s)).
Proof.
  intros Hwf Hhas.
  destruct (erase_present_inv e s Hwf Hhas)
    as (i0 & d0 & Hi0 & Hlt0 & Hd0 & He &
        [[Hlast Heq]|(Hnl & back & Hback & Hsl & Hle & Heq)]);
    destruct Hwf as (Hn & Hcap & _).
  - exists i0, d0. rewrite vec_at_lookup. split_and!; [done|..].
    + rewrite last_lookup. unfold range.
      rewrite length_take_le by (unfold vec_size in *; lia).
      rewrite lookup_take_lt by lia.
      by replace (pred (N.to_nat (n s))) with (N.to_nat i0) by lia.
    + rewrite Heq. unfold range. simpl.
      rewrite take_insert_ge by (rewrite Hlast; lia).
      rewrite take_take. f_equal. lia.
  - exists i0, back. rewrite vec_at_lookup. split_and!; [done|..].
    + rewrite last_lookup. unfold range.
      rewrite length_take_le by (unfold vec_size in *; lia).
      rewrite lookup_take_lt by lia.
      by replace (pred (N.to_nat (n s))) with (N.to_nat (n s - 1)) by lia.
    + rewrite Heq. unfold range. simpl.
      rewrite <- take_insert_lt by lia. rewrite take_take. f_equal. lia.
Qed.

(** The entries of the range are the present entities with their
    payloads. *)
Lemma range_component s e v :
  sparse_set_wf s →
  (e, v) ∈ (λ item, (index item, payload item)) <$> range s ↔
  has s e = true ∧ operator_index s e = Some v.
Proof.
  intros Hwf. pose proof (size_lt_npos s Hwf) as Hnpos.
  destruct Hwf as (Hn & _ & Hback). split.
  - intros (d & [= -> ->] & Hd)%list_elem_of_fmap.
    apply list_elem_of_lookup in Hd as [j Hd]. unfold range in Hd.
    apply lookup_take_Some in Hd as [Hd Hj].
    pose proof (Hback (N.of_nat j) d) as H1.
    rewrite !vec_at_lookup, !Nat2N.id in H1. specialize (H1 ltac:(lia) Hd).
    split.
    + apply has_true_iff. exists (N.of_nat j), d. rewrite Nat2N.id.
      split_and!; [done|lia|lia|done|done].
    + unfold operator_index. rewrite vec_at_lookup, H1. simpl.
      by rewrite vec_at_lookup, Nat2N.id, Hd.
  - intros [(i & d & Hi & _ & Hlt & Hd & <-)%has_true_iff Hop].
    unfold operator_index in Hop. rewrite vec_at_lookup, Hi in Hop. simpl in Hop.
    rewrite vec_at_lookup, Hd in Hop. injection Hop as <-.
    apply list_elem_of_fmap. exists d. split; [done|].
    apply list_elem_of_lookup. exists (N.to_nat i). unfold range.
    apply lookup_take_Some. split; [done|lia].
Qed.

End SparseSetRange.

Section SparseSetInvariant.

Context {V : Type}.
Implicit Types (s : sparse_set V) (e i : N) (v : V).

(** X18: the class invariant is kept. On a set that satisfies it, the set
    [erase(e)] leaves satisfies it; [emplace(e, v)] returns or throws with
    a set that satisfies it, its behaviour being undefined for no index
    below [2^64 - 1]; and the entities of the range are pairwise
    distinct. *)
Theorem sparse_set_invariant_kept s e v :
  sparse_set_wf s →
  sparse_set_wf (erase e s) ∧
  match emplace e v s with
  | Ok _ s' | Raise s' => sparse_set_wf s'
  | Undefined => npos ≤ e
  end ∧
  NoDup (index <$> range s).
Proof.
  intros Hwf. split_and!; [by apply erase_wf| |by apply range_NoDup].
  destruct (emplace e v s) as [[] s'|s'|] eqn:Hem.
  - by eapply emplace_wf.
  - by rewrite (emplace_Raise _ _ _ _ Hem).
  - apply N.le_ngt. intros He. by apply (emplace_defined e v s).
Qed.

End SparseSetInvariant.

(** * Further properties of the registry *)

Section RegistryMore.

Context {V : Type}.
Implicit Types (w : world V) (T : ctype) (e cid : N) (s : sparse_set V) (v : V).

(** *** Components as observed through the accessors *)

Lemma component_present w T e :
  is_Some (component w T e) ↔ present w T e = true.
Proof.
  unfold component. split.
  - intros [v Hv]. destruct (storage_of w T) as [s|] eqn:Hs; [|done].
    simpl in Hv. rewrite (storage_present _ _ _ _ Hs).
    by destruct (has s e).
  - intros (s & -> & Hhas)%present_storage. simpl. rewrite Hhas.
    by apply has_operator_index.
Qed.

Lemma component_absent w T e :
  present w T e = false → component w T e = None.
Proof.
  intros Hp. destruct (component w T e) as [v|] eqn:Hc; [|done].
  assert (present w T e = true) by (apply component_present; eauto). congruence.
Qed.

(** First uses change no component. *)
Lemma touched_component w w' T e :
  world_wf w → touched w w' → component w' T e = component w T e.
Proof.
  intros Hwf Ht. unfold component.
  destruct (storage_of w T) as [s|] eqn:Hs.
  - by rewrite (touched_storage_of _ _ _ _ Ht Hs).
  - destruct (storage_of w' T) as [s'|] eqn:Hs'; [|done]. simpl.
    destruct (touched_first_use _ _ _ _ Hwf Ht Hs Hs') as [-> _].
    by rewrite has_sparse_set_new.
Qed.

Lemma component_set_storages w T T' cid s' e :
  world_wf w → component_id_ w !! T' = Some cid →
  component (set_storages (<[cid := s']> (component_storages_ w)) w) T e =
    if decide (T = T')
    then (if has s' e then operator_index s' e else None)
    else component w T e.
Proof.
  intros (_ & Hinj & _) Hid. unfold component, storage_of. simpl. case_decide as HT.
  - subst. rewrite Hid. simpl. by rewrite lookup_insert_eq.
  - destruct (component_id_ w !! T) as [c|] eqn:Hc; [|done]. simpl.
    rewrite lookup_insert_ne; [done|]. intros ->. apply HT. by eapply Hinj.
Qed.

Lemma try_get_component_component T e w :
  world_wf w →
  ∃ w', try_get_component T e w = Ok (component w T e) w' ∧
        registry_state w' = registry_state w.
Proof.
  intros Hwf.
  destruct (get_component_id_spec T w) as (id & w1 & Hget & Hid & Hreg & _).
  pose proof (touched_get_component_id _ _ _ _ Hget) as Ht.
  rewrite <- (touched_component w w1 T e Hwf Ht).
  unfold try_get_component, bind, component, storage_of. rewrite Hget, Hid. simpl.
  destruct (component_storages_ w1 !! id) as [s|]; simpl; [|by eauto].
  destruct (has s e) eqn:Hhas; [|by eauto].
  destruct (has_operator_index _ _ Hhas) as [v ->]. eauto.
Qed.

(** X7: the three accessors agree. In a reachable state
    [try_get_component<T>(e)] returns the component of [e] or [nullptr],
    [has_component<T>(e)] returns whether there is one, both without
    touching the registry object, and where there is one
    [get_component<T>(e)] returns it too. *)
Theorem accessors_agree T e w :
  reachable w →
  (∃ w1, try_get_component T e w = Ok (component w T e) w1 ∧
         registry_state w1 = registry_state w) ∧
  (∃ w2, has_component T e w = Ok (bool_decide (is_Some (component w T e))) w2 ∧
         registry_state w2 = registry_state w) ∧
  (∀ v, component w T e = Some v → ∃ w3, get_component T e w = Ok v w3).
Proof.
  intros Hwf%reachable_wf. split_and!.
  - by apply try_get_component_component.
  - destruct (has_component_spec T e w) as (b & w2 & Hhas & _ & Hreg & Hb).
    exists w2. split; [|done]. rewrite Hhas, (Hb Hwf). f_equal.
    destruct (present w T e) eqn:Hp.
    + symmetry. apply bool_decide_eq_true. by apply component_present.
    + symmetry. apply bool_decide_eq_false. rewrite component_present. congruence.
  - intros v Hc.
    destruct (get_component_inv T e w) as (cid & w1 & s & Ht & Hs & _ & ->).
    exists w1. unfold component in Hc.
    destruct (storage_of w T) as [s0|] eqn:Hs0; [|done]. simpl in Hc.
    rewrite (touched_storage_of _ _ _ _ Ht Hs0) in Hs. injection Hs as <-.
    destruct (has s0 e); [|done]. by rewrite Hc.
Qed.

(** X8: when [add_component<T>(e, v)] returns in a reachable state, [e]
    holds [v] as its [T] component, every other component of every entity
    is as before, and the free list is as before. *)
Theorem add_component_effect T e v w w' :
  reachable w → add_component T e v w = Ok tt w' →
  component w' T e = Some v ∧
  (∀ T' e', T' ≠ T ∨ e' ≠ e → component w' T' e' = component w T' e') ∧
  free_entities_ w' = free_entities_ w.
Proof.
  intros Hwf%reachable_wf.
  destruct (add_component_inv T e v w) as (cid & w1 & s & Ht & Hid & Hs & _ & ->).
  destruct (touched_facts _ _ Ht) as (Hfree & _ & _ & _ & _ & Hw).
  destruct (Hw Hwf) as [Hwf1 _].
  assert (sparse_set_wf s) as Hwfs by (by eapply Hwf1).
  destruct (emplace e v s) as [[] s'|s'|] eqn:Hem; [|done..].
  intros [= <-]. split_and!; [..|done].
  - rewrite (component_set_storages _ _ _ _ _ _ Hwf1 Hid), decide_True by done.
    by rewrite (emplace_has_same _ _ _ _ Hwfs Hem), (emplace_operator_index _ _ _ _ Hem).
  - intros T' e' Hne.
    rewrite (component_set_storages _ _ _ _ _ _ Hwf1 Hid),
      <- (touched_component w w1 T' e' Hwf Ht).
    case_decide as HT; [|done]. subst T'. destruct Hne as [|Hne]; [done|].
    unfold component, storage_of. rewrite Hid. simpl. rewrite Hs. simpl.
    rewrite (emplace_has_other e' e v s s') by done.
    destruct (has s e') eqn:Hhas; [|done].
    by apply (emplace_payload_other e e' v).
Qed.

(** X9: [remove_component<T>(e)] always returns in a reachable state;
    afterwards [e] has no [T] component, every other component of every
    entity is as before, and the free list is as before. *)
Theorem remove_component_effect T e w :
  reachable w →
  ∃ w', remove_component T e w = Ok tt w' ∧
    component w' T e = None ∧
    (∀ T' e', T' ≠ T ∨ e' ≠ e → component w' T' e' = component w T' e') ∧
    free_entities_ w' = free_entities_ w.
Proof.
  intros Hwf%reachable_wf.
  destruct (remove_component_inv T e w) as (cid & w1 & s & Ht & Hid & Hs & ->).
  destruct (touched_facts _ _ Ht) as (Hfree & _ & _ & _ & _ & Hw).
  destruct (Hw Hwf) as [Hwf1 _].
  assert (sparse_set_wf s) as Hwfs by (by eapply Hwf1).
  eexists. split_and!; [done|..|done].
  - rewrite (component_set_storages _ _ _ _ _ _ Hwf1 Hid), decide_True by done.
    by rewrite erase_has_same.
  - intros T' e' Hne.
    rewrite (component_set_storages _ _ _ _ _ _ Hwf1 Hid),
      <- (touched_component w w1 T' e' Hwf Ht).
    case_decide as HT; [|done]. subst T'. destruct Hne as [|Hne]; [done|].
    unfold component, storage_of. rewrite Hid. simpl. rewrite Hs. simpl.
    rewrite erase_has_other by done.
    destruct (has s e') eqn:Hhas; [|done].
    by apply erase_payload_other.
Qed.

(** X10: [remove_entity(e)] in a reachable state strips [e] of every
    component, leaves the components of every other entity as they were,
    and puts [e] on top of the free list, so that the next
    [new_entity()] returns [e] and leaves the free list as it was before
    the removal. *)
Theorem remove_entity_effect e w :
  reachable w →
  ∃ w' w'', remove_entity e w = Ok tt w' ∧
    (∀ T, component w' T e = None) ∧
    (∀ T e', e' ≠ e → component w' T e' = component w T e') ∧
    new_entity w' = Ok e w'' ∧
    free_entities_ w'' = free_entities_ w ∧
    component_storages_ w'' = component_storages_ w'.
Proof.
  intros Hwf%reachable_wf. eexists _, _. split_and!; [done|..|done|done|done].
  - intros T. apply component_absent. by apply remove_entity_present.
  - intros T e' Hne. destruct Hwf as (_ & _ & Hsts).
    unfold component, storage_of. simpl.
    destruct (component_id_ w !! T) as [c|]; [|done]. simpl.
    rewrite lookup_fmap.
    destruct (component_storages_ w !! c) as [s|] eqn:Hs; [|done]. simpl.
    apply Hsts in Hs as [_ Hwfs]. rewrite erase_has_other by done.
    destruct (has s e') eqn:Hhas; [|done]. by apply erase_payload_other.
Qed.

(** X11: in a reachable state [each<T>] returns; it calls the visitor
    once per entity, on exactly the pairs of an entity and its [T]
    component, as many times as [T]'s storage has live entries. *)
Theorem each_visits_components T w :
  reachable w →
  ∃ calls w', each T w = Ok calls w' ∧
    NoDup calls.*1 ∧
    (∀ e v, (e, v) ∈ calls ↔ component w T e = Some v) ∧
    N.of_nat (length calls) = size_of w T.
Proof.
  intros Hwf%reachable_wf.
  destruct (each_spec T w) as (cid & w' & s & Ht & Hid & Hs & ->).
  destruct (touched_facts _ _ Ht) as (_ & _ & _ & _ & _ & Hw).
  destruct (Hw Hwf) as [Hwf' _].
  destruct (size_of_storage _ _ _ _ Hid Hs) as [Hst Hsz].
  pose proof (storage_of_wf _ _ _ Hwf' Hst) as Hwfs.
  eexists _, _. split_and!; [done|..].
  - rewrite <- list_fmap_compose. by apply range_NoDup.
  - intros e v. rewrite <- (touched_component w w' T e Hwf Ht).
    rewrite (range_component s e v Hwfs). unfold component. rewrite Hst. simpl.
    destruct (has s e); [|split; [by intros []|done]].
    split; [by intros []|done].
  - rewrite <- (touched_size_of w w' T Hwf Ht), Hsz, length_fmap. unfold range.
    destruct Hwfs as (Hn & _). rewrite length_take_le; unfold vec_size, size in *; lia.
Qed.

End RegistryMore.

Section RegistryQueries.

Context {V : Type}.
Implicit Types (w : world V) (T : ctype) (e cid : N) (s : sparse_set V) (v : V).

(** *** The arguments [view] passes to the visitor *)

Lemma all_present_replicate w T k e :
  present w T e = true → all_present w (replicate k T) e = true.
Proof.
  intros Hp. unfold all_present. induction k as [|k IH]; simpl; [done|].
  by rewrite Hp, IH.
Qed.

Lemma get_components_replicate T k e s v w :
  storage_of w T = Some s → operator_index s e = Some v →
  get_components (replicate k T) e w = Ok (replicate k v) w.
Proof.
  intros Hst Hv. induction k as [|k IH]; simpl; [done|].
  unfold bind. by rewrite (get_component_settled _ _ _ _ _ Hst Hv), IH.
Qed.

(** Over items that are live entries of the storage of [T], the loop of
    [view<T, ..., T>] calls the visitor on every item, in order, with the
    payload once per type of the list. *)
Lemma view_loop_replicate T copies s items w :
  storage_of w T = Some s →
  Forall (λ item, has s (index item) = true ∧
                  operator_index s (index item) = Some (payload item)) items →
  view_loop (view_types T copies) items w =
    Ok ((λ item, (index item, replicate (S copies) (payload item))) <$> items) w.
Proof.
  intros Hst. pose proof (settled_view_types _ _ copies _ Hst) as Hset.
  assert (∀ e, has s e = true → has_all (view_types T copies) e w = Ok true w)
    as Hall.
  { intros e He. rewrite (has_all_settled _ _ _ Hset). f_equal.
    apply (all_present_replicate w T (S copies) e).
    by rewrite (storage_present _ _ _ _ Hst). }
  pose proof (λ e v, get_components_replicate T (S copies) e s v w Hst) as Hget.
  change (replicate (S copies) T) with (view_types T copies) in Hget.
  generalize dependent (view_types T copies). intros Ts _ Hall Hget.
  induction 1 as [|item items [Hhas Hv] _ IH]; simpl; [done|].
  unfold bind. by rewrite (Hall _ Hhas), (Hget _ _ Hv), IH.
Qed.

(** X12: in a reachable state [view<T, ..., T>], the type list of [view]
    that builds, returns; it leaves the state [each<T>] leaves and makes
    the calls of [each<T>], in the same order, passing the component once
    per type of the list. *)
Theorem view_repeats_each T copies w :
  reachable w →
  ∃ calls w', each T w = Ok calls w' ∧
    view T copies w =
      Ok ((λ c, (c.1, replicate (S copies) c.2)) <$> calls) w'.
Proof.
  intros Hwf%reachable_wf.
  destruct (view_driver_spec T copies w)
    as (cid & w' & sD & Hget & Hdrv & Ht & Hid & HsD).
  destruct (touched_facts _ _ Ht) as (_ & _ & _ & _ & _ & Hw).
  destruct (Hw Hwf) as [Hwf' _].
  destruct (size_of_storage _ _ _ _ Hid HsD) as [Hst _].
  pose proof (storage_of_wf _ _ _ Hwf' Hst) as HwfD.
  exists ((λ item, (index item, payload item)) <$> range sD), w'. split.
  - unfold each, bind, deref. by rewrite Hget, HsD.
  - unfold view, bind, deref. rewrite Hdrv, HsD.
    rewrite (view_loop_replicate T copies sD (range sD) w' Hst).
    + by rewrite <- list_fmap_compose.
    + apply Forall_forall. intros item Hitem.
      apply (range_component sD (index item) (payload item) HwfD).
      apply list_elem_of_fmap. by exists item.
Qed.

(** *** Entity ids *)

Lemma fmap_seq_shift (a : N) (j k : nat) :
  (λ i, a + 1 + N.of_nat i) <$> seq j k = (λ i, a + N.of_nat i) <$> seq (S j) k.
Proof.
  revert j. induction k as [|k IH]; intros j; simpl; [done|].
  f_equal; [lia|]. apply IH.
Qed.

(** X13: with an empty free list, and as long as the 64-bit counter does
    not wrap, [k] calls of [new_entity()] return the [k] ids that follow
    [next_entity_], in increasing order, and leave the counter at the
    last of them. *)
Theorem new_entities_fresh k w :
  free_entities_ w = [] → next_entity_ w + N.of_nat k < word →
  ∃ w', new_entities k w =
          Ok ((λ i, next_entity_ w + N.of_nat i) <$> seq 1 k) w' ∧
        next_entity_ w' = next_entity_ w + N.of_nat k ∧
        free_entities_ w' = [] ∧
        component_storages_ w' = component_storages_ w.
Proof.
  revert w. induction k as [|k IH]; intros w Hfree Hk.
  - exists w. simpl. split_and!; [done|lia|done|done].
  - simpl. unfold bind, new_entity, ret. rewrite Hfree.
    rewrite N.mod_small by lia.
    edestruct (IH {| next_entity_ := next_entity_ w + 1;
                     next_component_id_ := next_component_id_ w;
                     component_id_ := component_id_ w;
                     free_entities_ := [];
                     component_storages_ := component_storages_ w |})
      as (w' & -> & Hnext & Hfree' & Hst); [done|simpl; lia|].
    simpl in *. exists w'. split_and!; [|lia|done|done].
    f_equal. simpl. f_equal. apply fmap_seq_shift.
Qed.

Lemma run_remove_entities (es : list N) w :
  ∃ w1, run (RemoveEntity <$> es) w = Some w1 ∧
    free_entities_ w1 = rev es ++ free_entities_ w ∧
    next_entity_ w1 = next_entity_ w.
Proof.
  revert w. induction es as [|e es IH]; intros w; simpl.
  - by exists w.
  - edestruct IH as (w1 & -> & Hfree & Hnext). exists w1.
    split_and!; [done| |done]. rewrite Hfree. simpl. by rewrite <- app_assoc.
Qed.

Lemma new_entities_pop (l rest : list N) w :
  free_entities_ w = l ++ rest →
  ∃ w', new_entities (length l) w = Ok l w' ∧
    free_entities_ w' = rest ∧ next_entity_ w' = next_entity_ w ∧
    component_storages_ w' = component_storages_ w.
Proof.
  revert w. induction l as [|e l IH]; intros w Hfree; simpl.
  - by exists w.
  - unfold bind, new_entity, ret. rewrite Hfree. simpl.
    edestruct (IH {| next_entity_ := next_entity_ w;
                     next_component_id_ := next_component_id_ w;
                     component_id_ := component_id_ w;
                     free_entities_ := l ++ rest;
                     component_storages_ := component_storages_ w |})
      as (w' & -> & ? & ? & ?); [done|]. by exists w'.
Qed.

(** X14: the free list is a stack. After [remove_entity] of the ids [es]
    in order, as many calls of [new_entity()] return those ids in reverse
    order, whatever the ids are, and leave the free list and the counter
    as they were before the removals. *)
Theorem new_entities_lifo (es : list N) w :
  ∃ w1 w2, run (RemoveEntity <$> es) w = Some w1 ∧
    new_entities (length es) w1 = Ok (rev es) w2 ∧
    free_entities_ w2 = free_entities_ w ∧
    next_entity_ w2 = next_entity_ w.
Proof.
  destruct (run_remove_entities es w) as (w1 & Hrun & Hfree & Hnext).
  destruct (new_entities_pop (rev es) (free_entities_ w) w1 Hfree)
    as (w2 & Hnew & Hfree2 & Hnext2 & _).
  rewrite length_rev in Hnew. exists w1, w2. split_and!; [done..|congruence].
Qed.

End RegistryQueries.

Section RegistryStatics.

Context {V : Type}.
Implicit Types (w : world V) (T : ctype) (e cid : N) (s : sparse_set V) (v : V).

(** *** Bounds *)

(** X15: in a reachable state no storage has more than [max_capacity]
    live entries or sparse slots, and only entities with an index below
    [max_capacity] hold components. *)
Theorem storages_bounded T w :
  reachable w →
  size_of w T ≤ max_capacity ∧
  (∀ s, storage_of w T = Some s → vec_size (sparse_ s) ≤ max_capacity) ∧
  (∀ e, present w T e = true → e < max_capacity).
Proof.
  intros Hwf%reachable_wf. split_and!.
  - unfold size_of. destruct (storage_of w T) as [s|] eqn:Hs; [|done]. simpl.
    pose proof (storage_of_wf _ _ _ Hwf Hs) as Hwfs.
    pose proof (size_le_sparse s Hwfs). destruct Hwfs as (_ & ? & _).
    unfold size. lia.
  - intros s Hs. by destruct (storage_of_wf _ _ _ Hwf Hs) as (_ & ? & _).
  - intros e (s & Hs & Hhas)%present_storage.
    destruct (storage_of_wf _ _ _ Hwf Hs) as (_ & Hcap & _).
    apply has_true_iff in Hhas as (i & d & Hi%lookup_lt_Some & _).
    unfold vec_size in *. lia.
Qed.

(** *** Component type ids *)

Lemma get_component_id_dense T id w w' :
  get_component_id T w = Ok id w' →
  next_component_id_ w = 1 + N.of_nat (base.size (component_id_ w)) ∧
  (∀ T' id', component_id_ w !! T' = Some id' → 1 ≤ id') →
  next_component_id_ w' = 1 + N.of_nat (base.size (component_id_ w')) ∧
  (∀ T' id', component_id_ w' !! T' = Some id' → 1 ≤ id').
Proof.
  unfold get_component_id. destruct (component_id_ w !! T) as [id0|] eqn:Hid.
  - by intros [= <- <-].
  - intros [= <- <-] [Hnext Hpos]. simpl. split.
    + rewrite map_size_insert_None by done. lia.
    + intros T' id'. rewrite lookup_insert. case_decide; [|apply Hpos].
      intros [= <-]. lia.
Qed.

Lemma get_storage_statics T cid w w' :
  get_storage T w = Ok cid w' →
  ∃ w1, get_component_id T w = Ok cid w1 ∧
    component_id_ w' = component_id_ w1 ∧
    next_component_id_ w' = next_component_id_ w1.
Proof.
  unfold get_storage, bind.
  destruct (get_component_id T w) as [id w1| |]; [|done..].
  destruct (component_storages_ w1 !! id); intros [= <- <-]; by exists w1.
Qed.

Lemma touched_dense w w' :
  touched w w' →
  next_component_id_ w = 1 + N.of_nat (base.size (component_id_ w)) ∧
  (∀ T id, component_id_ w !! T = Some id → 1 ≤ id) →
  next_component_id_ w' = 1 + N.of_nat (base.size (component_id_ w')) ∧
  (∀ T id, component_id_ w' !! T = Some id → 1 ≤ id).
Proof.
  induction 1 as [w|w T id w1 w2 Hget _ IH|w T cid w1 w2 Hget _ IH]; [done|..];
    intros Hinv; apply IH.
  - by eapply get_component_id_dense.
  - apply get_storage_statics in Hget as (w0 & Hget & -> & ->).
    by eapply get_component_id_dense.
Qed.

(** A call changes the statics of component ids by first uses only. *)
Lemma call_statics (o : op V) w w' :
  call o w = Ok tt w' ∨ call o w = Raise w' →
  ∃ w1, touched w w1 ∧ component_id_ w' = component_id_ w1 ∧
        next_component_id_ w' = next_component_id_ w1.
Proof.
  intros Hcall.
  destruct o as [|e|T e v|T e|T e|T e|T e|Ts e|T|first_t copies];
    try (pose proof (λ H, reads_touched _ w w' H Hcall) as Hr;
         destruct (Hr I) as [[=]|Ht]; by exists w').
  - exists w. split; [apply touched_refl|].
    simpl in Hcall. unfold forget, bind, new_entity, ret in Hcall.
    destruct (free_entities_ w); by destruct Hcall as [[= <-]|[=]].
  - exists w. split; [apply touched_refl|].
    simpl in Hcall. unfold remove_entity in Hcall.
    by destruct Hcall as [[= <-]|[=]].
  - simpl in Hcall.
    destruct (add_component_inv T e v w) as (cid & w1 & s & Ht & _ & _ & _ & Heq).
    rewrite Heq in Hcall. exists w1. split; [done|].
    destruct (emplace e v s) as [[] s'|s'|];
      by destruct Hcall as [[= <-]|[= <-]].
  - simpl in Hcall.
    destruct (remove_component_inv T e w) as (cid & w1 & s & Ht & _ & _ & Heq).
    rewrite Heq in Hcall. exists w1. split; [done|].
    by destruct Hcall as [[= <-]|[=]].
Qed.

Lemma run_statics ops w w' :
  run ops w = Some w' →
  (∀ T id, component_id_ w !! T = Some id → component_id_ w' !! T = Some id) ∧
  (next_component_id_ w = 1 + N.of_nat (base.size (component_id_ w)) ∧
   (∀ T id, component_id_ w !! T = Some id → 1 ≤ id) →
   next_component_id_ w' = 1 + N.of_nat (base.size (component_id_ w')) ∧
   (∀ T id, component_id_ w' !! T = Some id → 1 ≤ id)).
Proof.
  revert w. induction ops as [|o ops IH]; intros w; simpl.
  - by intros [= <-].
  - intros Hrun.
    assert (∃ w1, (call o w = Ok tt w1 ∨ call o w = Raise w1) ∧ run ops w1 = Some w')
      as (w1 & Hcall & Hrun1).
    { destruct (call o w) as [[] w1|w1|]; [..|done]; eauto. }
    destruct (call_statics _ _ _ Hcall) as (w0 & Ht & Hids & Hnext).
    destruct (touched_facts _ _ Ht) as (_ & _ & Hmono & _).
    destruct (IH _ Hrun1) as [Hmono1 Hinv1]. split.
    + intros T id Hid. apply Hmono1. rewrite Hids. by apply Hmono.
    + intros Hinv. apply Hinv1. rewrite Hids, Hnext. by apply (touched_dense w w0).
Qed.

(** X16: component type ids as the program sees them. In a reachable
    state the ids handed out are exactly as many as the counter has
    advanced from 1, each lies between 1 and the counter, no two types
    share one, and whatever the program does next every type keeps the id
    it has. *)
Theorem component_ids_dense_stable w :
  reachable w →
  next_component_id_ w = 1 + N.of_nat (base.size (component_id_ w)) ∧
  (∀ T id, component_id_ w !! T = Some id → 1 ≤ id < next_component_id_ w) ∧
  (∀ T1 T2 id, component_id_ w !! T1 = Some id →
               component_id_ w !! T2 = Some id → T1 = T2) ∧
  (∀ ops w' T id, run ops w = Some w' →
     component_id_ w !! T = Some id → component_id_ w' !! T = Some id).
Proof.
  intros Hreach. pose proof (reachable_wf _ Hreach) as (Hlt & Hinj & _).
  destruct Hreach as [ops0 Hrun0].
  destruct (run_statics _ _ _ Hrun0) as [_ Hinv].
  destruct Hinv as [Hnext Hpos].
  { split; [done|]. intros T id. simpl. by rewrite lookup_empty. }
  split_and!; [done| |done|].
  - intros T id Hid. split; [by eapply Hpos|by eapply Hlt].
  - intros ops w' T id Hrun. by apply (run_statics _ _ _ Hrun).
Qed.

(** *** The accessors of a const registry *)

(** X17: [get_storage() const] never registers a storage: in a reachable
    state it answers [T]'s storage, or an empty set where [T] has none,
    and leaves the registry object as it was; and [get_component() const]
    returns the component of an entity that has one. *)
Theorem const_accessors T e w :
  reachable w →
  ∃ w1, get_storage_const T w =
          Ok (default sparse_set_new (storage_of w T)) w1 ∧
    registry_state w1 = registry_state w ∧
    (∀ v, component w T e = Some v → get_component_const T e w = Ok v w1).
Proof.
  intros Hwf%reachable_wf.
  destruct (get_component_id_spec T w)
    as (id & w1 & Hget & Hid & Hreg & _ & Hmono & _ & Hfresh & _).
  pose proof Hreg as Hreg'. injection Hreg as Hfree Hst.
  assert (get_storage_const T w = Ok (default sparse_set_new (storage_of w T)) w1)
    as Hconst.
  { unfold get_storage_const, bind. rewrite Hget, Hst. unfold storage_of.
    destruct (component_id_ w !! T) as [id0|] eqn:Hid0; simpl.
    - rewrite (Hmono _ _ Hid0) in Hid. injection Hid as ->.
      by destruct (component_storages_ w !! id).
    - rewrite (Hfresh eq_refl).
      destruct (component_storages_ w !! next_component_id_ w) as [s|] eqn:Hs; [|done].
      destruct Hwf as (_ & _ & Hsts). apply Hsts in Hs as [? _]. lia. }
  exists w1. split_and!; [done|done|].
  intros v Hc. unfold get_component_const, bind. rewrite Hconst.
  unfold component in Hc. destruct (storage_of w T) as [s|]; [|done]. simpl in *.
  destruct (has s e); [|done]. by rewrite Hc.
Qed.

End RegistryStatics.

(** * The unchecked accessor and small indices *)

Section Tight.

Context {V : Type}.
Implicit Types (w : world V) (T : ctype) (e i cid : N) (s : sparse_set V) (v : V).

Lemma sparse_set_new_tight : sparse_set_tight (@sparse_set_new V).
Proof.
  split_and!; [by vm_compute|by vm_compute|]. intros e i. rewrite vec_at_lookup.
  unfold sparse_set_new. cbn [sparse_]. intros [-> _]%lookup_replicate. done.
Qed.

Lemma emplace_tight e v s s' :
  sparse_set_wf s → sparse_set_tight s → emplace e v s = Ok tt s' →
  sparse_set_tight s'.
Proof.
  intros Hwf (Hmin & Hlen & Hstale) Hem.
  pose proof (emplace_wf _ _ _ _ Hwf Hem) as Hwf'.
  pose proof (size_le_sparse s' Hwf') as Hn'.
  pose proof (emplace_has_same _ _ _ _ Hwf Hem) as Hsame.
  pose proof (λ e' H, emplace_has_other e' e v s s' Hwf Hem H) as Hother.
  apply emplace_Ok_inv in Hem as (s1 & Hg & Hcase).
  pose proof Hg as Hg'. apply grow_sparse_to_wf in Hg' as [Hwf1 Hhas1]; [|done].
  pose proof (size_lt_npos s1 Hwf1) as Hnpos.
  destruct Hwf as (_ & Hcap & _).
  apply grow_sparse_to_Ok in Hg as (Hd & Hn1 & [k Hsp] & _); [|done].
  assert (vec_size (sparse_ s) ≤ vec_size (sparse_ s1)) as Hgrow.
  { rewrite Hsp. unfold vec_size. rewrite length_app. lia. }
  assert (∀ e' i, vec_at (sparse_ s1) e' = Some i → i ≠ npos → has s e' = true)
    as Hstale1.
  { intros e' i Hi Hnp. apply (Hstale e' i); [|done].
    rewrite vec_at_lookup in Hi |- *. rewrite Hsp in Hi. by eapply lookup_grown. }
  destruct Hcase as [(i0 & d0 & _ & _ & _ & ->)
                    |(dense' & _ & He & _ & Hlen' & _ & _ & ->)]; simpl in *.
  - split_and!; cbn [sparse_ dense_ n];
      [lia|unfold vec_size in *; rewrite length_insert, Hd; lia|].
    intros e' i Hi Hnp. destruct (decide (e' = e)) as [->|Hne]; [done|].
    rewrite Hother by done. by eapply Hstale1.
  - rewrite N.mod_small in Hn' by (unfold npos, word in *; lia).
    rewrite Hd in Hlen'.
    split_and!; cbn [sparse_ dense_ n] in *; unfold vec_size in *;
      rewrite ?length_insert in *; [lia|lia|].
    intros e' i Hi Hnp. destruct (decide (e' = e)) as [->|Hne]; [done|].
    rewrite Hother by done. apply (Hstale1 e' i); [|done].
    rewrite vec_at_lookup in Hi |- *.
    by rewrite list_lookup_insert_ne in Hi by lia.
Qed.

Lemma erase_tight e s :
  sparse_set_wf s → sparse_set_tight s → sparse_set_tight (erase e s).
Proof.
  intros Hwf (Hmin & Hlen & Hstale).
  destruct (has s e) eqn:Hhas; [|by rewrite erase_absent].
  pose proof (λ e' H, erase_has_other e' e s Hwf H) as Hother.
  destruct (erase_present_inv e s Hwf Hhas)
    as (i0 & d0 & Hi0 & Hlt0 & Hd0 & He &
        [[Hlast Heq]|(Hnl & back & Hback & Hsl & Hle & Heq)]);
    rewrite Heq in Hother |- *; simpl.
  - split_and!; simpl; unfold vec_size in *; rewrite ?length_insert; [done..|].
    intros e' i. rewrite vec_at_lookup. simpl. intros Hi Hnp.
    destruct (decide (e' = e)) as [->|Hne].
    + rewrite list_lookup_insert_eq in Hi by (by eapply lookup_lt_Some).
      by injection Hi as <-.
    + rewrite list_lookup_insert_ne in Hi by lia.
      rewrite Hother by done. apply (Hstale e' i); [|done]. by rewrite vec_at_lookup.
  - split_and!; simpl; unfold vec_size in *; rewrite ?length_insert; [done..|].
    intros e' i. rewrite vec_at_lookup. simpl. intros Hi Hnp.
    destruct (decide (e' = e)) as [->|Hne].
    + rewrite list_lookup_insert_eq in Hi; [by injection Hi as <-|].
      rewrite length_insert. by eapply lookup_lt_Some.
    + rewrite list_lookup_insert_ne in Hi by lia. rewrite Hother by done.
      destruct (decide (index back = e')) as [<-|Hm].
      * apply (Hstale (index back) (n s - 1)); [by rewrite vec_at_lookup|].
        pose proof (size_lt_npos s Hwf). unfold npos in *. lia.
      * rewrite list_lookup_insert_ne in Hi by lia.
        apply (Hstale e' i); [|done]. by rewrite vec_at_lookup.
Qed.

(** Every storage of a reachable state is tight. *)
Lemma call_tight (o : op V) w w' :
  world_wf w →
  (∀ cid s, component_storages_ w !! cid = Some s → sparse_set_tight s) →
  call o w = Ok tt w' ∨ call o w = Raise w' →
  ∀ cid s, component_storages_ w' !! cid = Some s → sparse_set_tight s.
Proof.
  intros Hwf Htight Hcall.
  assert (∀ w1, touched w w1 →
            world_wf w1 ∧
            ∀ cid s, component_storages_ w1 !! cid = Some s → sparse_set_tight s)
    as Htouched.
  { intros w1 Ht. destruct (touched_facts _ _ Ht) as (_ & _ & _ & _ & Hnew & Hw).
    split; [by apply Hw|].
    intros cid s [Hs|[_ ->]]%Hnew; [by eapply Htight|apply sparse_set_new_tight]. }
  destruct o as [|e|T e v|T e|T e|T e|T e|Ts e|T|first_t copies];
    try (pose proof (λ H, reads_touched _ w w' H Hcall) as Hr;
         destruct (Hr I) as [[=]|Ht]; by apply Htouched).
  - simpl in Hcall. unfold forget, bind, new_entity, ret in Hcall.
    destruct (free_entities_ w); by destruct Hcall as [[= <-]|[=]].
  - simpl in Hcall. unfold remove_entity in Hcall.
    destruct Hcall as [[= <-]|[=]]. simpl. intros cid s. rewrite lookup_fmap.
    destruct (component_storages_ w !! cid) as [s0|] eqn:Hs0; [|done].
    intros [= <-]. destruct Hwf as (_ & _ & Hsts). apply Hsts in Hs0 as Hwfs.
    apply erase_tight; [tauto|by eapply Htight].
  - simpl in Hcall.
    destruct (add_component_inv T e v w) as (c & w1 & s0 & Ht & _ & Hs0 & _ & Heq).
    rewrite Heq in Hcall. destruct (Htouched _ Ht) as [Hwf1 Htight1].
    assert (sparse_set_wf s0) as Hwfs by (by eapply Hwf1).
    intros cid s.
    destruct (emplace e v s0) as [[] s'|s'|] eqn:Hem;
      [destruct Hcall as [[= <-]|[=]]|destruct Hcall as [[=]|[= <-]]|by destruct Hcall];
      simpl; rewrite lookup_insert; (case_decide; [|by apply Htight1]);
      intros [= <-].
    + eapply emplace_tight; [done| |done]. by eapply Htight1.
    + apply emplace_Raise in Hem as ->. by eapply Htight1.
  - simpl in Hcall.
    destruct (remove_component_inv T e w) as (c & w1 & s0 & Ht & _ & Hs0 & Heq).
    rewrite Heq in Hcall. destruct Hcall as [[= <-]|[=]].
    destruct (Htouched _ Ht) as [Hwf1 Htight1].
    intros cid s. simpl. rewrite lookup_insert. case_decide; [|by apply Htight1].
    intros [= <-]. apply erase_tight; [by eapply Hwf1|by eapply Htight1].
Qed.

Lemma reachable_tight w cid s :
  reachable w → component_storages_ w !! cid = Some s → sparse_set_tight s.
Proof.
  intros [ops Hrun]. revert cid s.
  cut (∀ w0, world_wf w0 →
         (∀ cid s, component_storages_ w0 !! cid = Some s → sparse_set_tight s) →
         run ops w0 = Some w →
         ∀ cid s, component_storages_ w !! cid = Some s → sparse_set_tight s).
  { intros H. apply (H world_new); [apply world_new_wf| |done].
    intros cid s. simpl. by rewrite lookup_empty. }
  clear Hrun. induction ops as [|o ops IH]; intros w0 Hwf Htight; simpl.
  - by intros [= <-].
  - destruct (call o w0) as [[] w1|w1|] eqn:Hcall; [..|done];
      (apply IH; [eapply call_wf; eauto|eapply call_tight; eauto]).
Qed.

(** The unchecked subscript of an absent entity is out of range. *)
Lemma operator_index_absent s e :
  sparse_set_wf s → sparse_set_tight s → has s e = false →
  operator_index s e = None.
Proof.
  intros Hwf (_ & Hlen & Hstale) Hhas. unfold operator_index.
  destruct (vec_at (sparse_ s) e) as [i|] eqn:Hi; [|done]. simpl.
  destruct (decide (i = npos)) as [->|Hnp].
  - destruct Hwf as (_ & Hcap & _). unfold vec_at.
    destruct (N.ltb_spec npos (vec_size (dense_ s))); [|done].
    unfold npos, max_capacity in *. lia.
  - rewrite (Hstale e i Hi Hnp) in Hhas. done.
Qed.

(** X19: [has_all<Ts...>(e)] returns, in a reachable state, whether [e]
    has a component of every type of [Ts] (true for the empty list); the
    short circuit changes which types get their id, not the answer, and
    the registry object is left as it was. *)
Theorem has_all_answers Ts e w :
  reachable w →
  ∃ w', has_all Ts e w = Ok (all_present w Ts e) w' ∧
    registry_state w' = registry_state w ∧
    (all_present w Ts e = true ↔ ∀ T, T ∈ Ts → is_Some (component w T e)).
Proof.
  intros Hwf%reachable_wf.
  destruct (has_all_spec Ts e w) as (b & w' & Hhas & _ & Hreg & Hb).
  exists w'. rewrite Hhas, (Hb Hwf). split; [done|]. split; [done|].
  clear Hhas Hb. unfold all_present. induction Ts as [|T Ts IH]; simpl.
  - split; [|done]. intros _ T HT. by apply elem_of_nil in HT.
  - rewrite andb_true_iff, IH. split.
    + intros [HT Hall] T' [->|HT']%elem_of_cons; [|by apply Hall].
      by apply component_present.
    + intros Hall. split.
      * apply component_present, Hall. by left.
      * intros T' HT'. apply Hall. by right.
Qed.

(** X20: the unchecked accessor has no defined result without its
    precondition. In a reachable state, [get_component<T>(e)] on an entity
    that has no [T] component subscripts a vector out of range, whether
    [T] has a storage or not; so does [get_component<T>(e) const]. *)
Theorem get_component_absent_undefined T e w :
  reachable w → component w T e = None →
  get_component T e w = Undefined ∧ get_component_const T e w = Undefined.
Proof.
  intros Hreach Hnone. pose proof (reachable_wf _ Hreach) as Hwf.
  assert (∀ s, sparse_set_wf s → sparse_set_tight s →
               default sparse_set_new (storage_of w T) = s →
               operator_index s e = None) as Habs.
  { intros s Hwfs Hts Hs. apply operator_index_absent; [done..|].
    unfold component in Hnone. destruct (storage_of w T) as [s0|]; simpl in *.
    - subst s0. destruct (has s e) eqn:Hhas; [|done].
      destruct (has_operator_index _ _ Hhas). congruence.
    - subst s. apply has_sparse_set_new. }
  assert (∀ s, storage_of w T = Some s → sparse_set_tight s) as Htw.
  { intros s Hs. unfold storage_of in Hs.
    destruct (component_id_ w !! T) as [c|]; [|done]. by eapply reachable_tight. }
  split.
  - destruct (get_component_inv T e w) as (cid & w1 & s & Ht & Hs & _ & ->).
    rewrite Habs; [done|by eapply storage_of_wf, Hs; apply touched_facts in Ht;
                          apply Ht|..].
    + destruct (storage_of w T) as [s0|] eqn:Hs0.
      * rewrite (touched_storage_of _ _ _ _ Ht Hs0) in Hs. injection Hs as <-.
        by apply Htw.
      * destruct (touched_first_use _ _ _ _ Hwf Ht Hs0 Hs) as [-> _].
        apply sparse_set_new_tight.
    + destruct (storage_of w T) as [s0|] eqn:Hs0; simpl.
      * rewrite (touched_storage_of _ _ _ _ Ht Hs0) in Hs. by injection Hs.
      * by destruct (touched_first_use _ _ _ _ Hwf Ht Hs0 Hs) as [-> _].
  - destruct (get_component_id_spec T w)
      as (id & w1 & Hget & Hid & [= Hfree Hst] & _ & Hmono & _ & Hfresh & _).
    unfold get_component_const, get_storage_const, bind. rewrite Hget, Hst.
    assert (component_storages_ w !! id = storage_of w T) as ->.
    { unfold storage_of. destruct (component_id_ w !! T) as [id0|] eqn:Hid0; simpl.
      - rewrite (Hmono _ _ Hid0) in Hid. by injection Hid as ->.
      - rewrite (Hfresh eq_refl).
        destruct (component_storages_ w !! next_component_id_ w) as [s|] eqn:Hs; [|done].
        destruct Hwf as (_ & _ & Hsts). apply Hsts in Hs as [? _]. lia. }
    destruct (storage_of w T) as [s0|] eqn:Hs0.
    + rewrite (Habs s0); [done|by eapply storage_of_wf|by apply Htw|done].
    + rewrite (Habs sparse_set_new);
        [done|apply sparse_set_new_wf|apply sparse_set_new_tight|done].
Qed.

(** X21: entity indices below the 1024 slots of the constructor are
    always accepted. In a reachable state [add_component<T>(e, v)] with
    [e < 1024] returns, for every type, without growing a sparse array. *)
Theorem add_component_small_index T e v w :
  reachable w → e < 1024 →
  ∃ w', add_component T e v w = Ok tt w' ∧
    ∀ s s', storage_of w T = Some s → storage_of w' T = Some s' →
            vec_size (sparse_ s') = vec_size (sparse_ s).
Proof.
  intros Hreach He. pose proof (reachable_wf _ Hreach) as Hwf.
  destruct (add_component_inv T e v w) as (cid & w1 & s & Ht & Hid & Hs & _ & ->).
  destruct (touched_facts _ _ Ht) as (_ & _ & _ & _ & Hnew & Hw).
  destruct (Hw Hwf) as [Hwf1 _].
  assert (sparse_set_wf s) as Hwfs by (by eapply Hwf1).
  assert (sparse_set_tight s) as Hts.
  { destruct (Hnew _ _ Hs) as [Hold|[_ ->]];
      [by eapply reachable_tight|apply sparse_set_new_tight]. }
  destruct Hts as (Hmin & _).
  destruct (emplace e v s) as [[] s'|s'|] eqn:Hem.
  - eexists. split; [done|]. intros s0 s0' Hs0 Hs0'.
    pose proof (touched_storage_of _ _ _ _ Ht Hs0) as Hs1.
    unfold storage_of in Hs1, Hs0'. simpl in Hs0'. rewrite Hid in Hs1, Hs0'.
    simpl in *. rewrite lookup_insert_eq in Hs0'. simplify_eq.
    apply emplace_Ok_inv in Hem as (s1 & Hg & Hcase).
    assert (s1 = s) as ->.
    { unfold grow_sparse_to in Hg.
      destruct (N.leb_spec (vec_size (sparse_ s)) e); [lia|]. by injection Hg. }
    destruct Hcase as [(? & ? & _ & _ & _ & ->)|(? & _ & _ & _ & _ & _ & _ & ->)];
      simpl; [done|]. unfold vec_size. by rewrite length_insert.
  - exfalso. assert (∃ s', emplace e v s = Raise s') as Hex by eauto.
    apply emplace_Raise_iff in Hex as [? _]. lia.
  - exfalso. revert Hem. apply emplace_defined; [done|]. unfold npos. lia.
Qed.

End Tight.

(** * The further properties on concrete programs *)

Lemma emplace_size_witness :
  sparse_set_wf scenario1_positions ∧
  emplace 7 70 scenario1_positions = Ok tt scenario1_positions_plus ∧
  (n scenario1_positions_plus =
     (if has scenario1_positions 7 then n scenario1_positions
      else n scenario1_positions + 1) ∧
   has scenario1_positions_plus 7 = true ∧
   operator_index scenario1_positions_plus 7 = Some 70).
Proof.
  split; [|split].
  - apply sparse_set_wfb_sound. vm_compute. reflexivity.
  - vm_compute. reflexivity.
  - apply emplace_size.
    + apply sparse_set_wfb_sound. vm_compute. reflexivity.
    + vm_compute. reflexivity.
Defined.

Lemma emplace_frame_witness :
  sparse_set_wf scenario1_positions ∧
  emplace 7 70 scenario1_positions = Ok tt scenario1_positions_plus ∧
  1 ≠ 7 ∧
  (has scenario1_positions_plus 1 = has scenario1_positions 1 ∧
   (has scenario1_positions 1 = true →
    operator_index scenario1_positions_plus 1 =
      operator_index scenario1_positions 1)).
Proof.
  split; [|split; [|split]].
  - apply sparse_set_wfb_sound. vm_compute. reflexivity.
  - vm_compute. reflexivity.
  - discriminate.
  - apply (emplace_frame scenario1_positions 7 1 70).
    + apply sparse_set_wfb_sound. vm_compute. reflexivity.
    + vm_compute. reflexivity.
    + discriminate.
Defined.

Lemma erase_frame_witness :
  sparse_set_wf scenario1_positions ∧
  2 ≠ 1 ∧
  (has (erase 1 scenario1_positions) 2 = has scenario1_positions 2 ∧
   (has scenario1_positions 2 = true →
    operator_index (erase 1 scenario1_positions) 2 =
      operator_index scenario1_positions 2)).
Proof.
  split; [|split].
  - apply sparse_set_wfb_sound. vm_compute. reflexivity.
  - discriminate.
  - apply erase_frame.
    + apply sparse_set_wfb_sound. vm_compute. reflexivity.
    + discriminate.
Defined.

Lemma emplace_erase_range_witness :
  sparse_set_wf scenario1_positions ∧
  has scenario1_positions 7 = false ∧
  emplace 7 70 scenario1_positions = Ok tt scenario1_positions_plus ∧
  (range (erase 7 scenario1_positions_plus) = range scenario1_positions ∧
   n (erase 7 scenario1_positions_plus) = n scenario1_positions).
Proof.
  split; [|split; [|split]].
  - apply sparse_set_wfb_sound. vm_compute. reflexivity.
  - vm_compute. reflexivity.
  - vm_compute. reflexivity.
  - apply (emplace_erase_range scenario1_positions 7 70).
    + apply sparse_set_wfb_sound. vm_compute. reflexivity.
    + vm_compute. reflexivity.
    + vm_compute. reflexivity.
Defined.

Lemma emplace_succeeds_iff_witness :
  sparse_set_wf scenario1_positions ∧
  2000 < npos ∧
  (((∃ s', emplace 2000 70 scenario1_positions = Ok tt s') ↔
    (2000 < vec_size (sparse_ scenario1_positions) ∨
     N.max (vec_size (sparse_ scenario1_positions) * 2) (2000 + 1)
       ≤ max_capacity)) ∧
   ((∃ s', emplace 2000 70 scenario1_positions = Ok tt s') ∨
    emplace 2000 70 scenario1_positions = Raise scenario1_positions)).
Proof.
  split; [|split].
  - apply sparse_set_wfb_sound. vm_compute. reflexivity.
  - reflexivity.
  - apply emplace_succeeds_iff.
    + apply sparse_set_wfb_sound. vm_compute. reflexivity.
    + reflexivity.
Defined.

Lemma erase_moves_last_witness :
  sparse_set_wf scenario1_positions ∧
  has scenario1_positions 1 = true ∧
  ∃ i back,
    vec_at (sparse_ scenario1_positions) 1 = Some i ∧
    last (range scenario1_positions) = Some back ∧
    range (erase 1 scenario1_positions) =
      take (N.to_nat (n scenario1_positions) - 1)
           (<[N.to_nat i := back]> (range scenario1_positions)).
Proof.
  split; [|split].
  - apply sparse_set_wfb_sound. vm_compute. reflexivity.
  - vm_compute. reflexivity.
  - apply erase_moves_last.
    + apply sparse_set_wfb_sound. vm_compute. reflexivity.
    + vm_compute. reflexivity.
Defined.

Lemma sparse_set_invariant_kept_witness :
  sparse_set_wf scenario1_positions ∧
  (sparse_set_wf (erase 1 scenario1_positions) ∧
   match emplace 1 70 scenario1_positions with
   | Ok _ s' | Raise s' => sparse_set_wf s'
   | Undefined => npos ≤ 1
   end ∧
   NoDup (index <$> range scenario1_positions)).
Proof.
  split.
  - apply sparse_set_wfb_sound. vm_compute. reflexivity.
  - apply sparse_set_invariant_kept.
    apply sparse_set_wfb_sound. vm_compute. reflexivity.
Defined.

Lemma accessors_agree_witness :
  reachable scenario1 ∧
  ((∃ w1, try_get_component "Position" 2 scenario1 =
            Ok (component scenario1 "Position" 2) w1 ∧
          registry_state w1 = registry_state scenario1) ∧
   (∃ w2, has_component "Position" 2 scenario1 =
            Ok (bool_decide (is_Some (component scenario1 "Position" 2))) w2 ∧
          registry_state w2 = registry_state scenario1) ∧
   (∀ v, component scenario1 "Position" 2 = Some v →
         ∃ w3, get_component "Position" 2 scenario1 = Ok v w3)).
Proof.
  split.
  - exists scenario1_program. vm_compute. reflexivity.
  - apply accessors_agree. exists scenario1_program. vm_compute. reflexivity.
Defined.

Lemma add_component_effect_witness :
  reachable scenario1 ∧
  add_component "Position" 2 99 scenario1 = Ok tt scenario1_overwritten ∧
  (component scenario1_overwritten "Position" 2 = Some 99 ∧
   (∀ T' e', T' ≠ "Position" ∨ e' ≠ 2 →
      component scenario1_overwritten T' e' = component scenario1 T' e') ∧
   free_entities_ scenario1_overwritten = free_entities_ scenario1).
Proof.
  split; [|split].
  - exists scenario1_program. vm_compute. reflexivity.
  - vm_compute. reflexivity.
  - apply add_component_effect.
    + exists scenario1_program. vm_compute. reflexivity.
    + vm_compute. reflexivity.
Defined.

Lemma remove_component_effect_witness :
  reachable scenario1 ∧
  ∃ w', remove_component "Velocity" 2 scenario1 = Ok tt w' ∧
    component w' "Velocity" 2 = None ∧
    (∀ T' e', T' ≠ "Velocity" ∨ e' ≠ 2 →
       component w' T' e' = component scenario1 T' e') ∧
    free_entities_ w' = free_entities_ scenario1.
Proof.
  split.
  - exists scenario1_program. vm_compute. reflexivity.
  - apply remove_component_effect. exists scenario1_program. vm_compute. reflexivity.
Defined.

Lemma remove_entity_effect_witness :
  reachable scenario1 ∧
  ∃ w' w'', remove_entity 2 scenario1 = Ok tt w' ∧
    (∀ T, component w' T 2 = None) ∧
    (∀ T e', e' ≠ 2 → component w' T e' = component scenario1 T e') ∧
    new_entity w' = Ok 2 w'' ∧
    free_entities_ w'' = free_entities_ scenario1 ∧
    component_storages_ w'' = component_storages_ w'.
Proof.
  split.
  - exists scenario1_program. vm_compute. reflexivity.
  - apply remove_entity_effect. exists scenario1_program. vm_compute. reflexivity.
Defined.

Lemma each_visits_components_witness :
  reachable scenario1 ∧
  ∃ calls w', each "Velocity" scenario1 = Ok calls w' ∧
    NoDup calls.*1 ∧
    (∀ e v, (e, v) ∈ calls ↔ component scenario1 "Velocity" e = Some v) ∧
    N.of_nat (length calls) = size_of scenario1 "Velocity".
Proof.
  split.
  - exists scenario1_program. vm_compute. reflexivity.
  - apply each_visits_components. exists scenario1_program. vm_compute. reflexivity.
Defined.

Lemma view_repeats_each_witness :
  reachable scenario1 ∧
  ∃ calls w', each "Position" scenario1 = Ok calls w' ∧
    view "Position" 1 scenario1 =
      Ok ((λ c, (c.1, replicate 2 c.2)) <$> calls) w'.
Proof.
  split.
  - exists scenario1_program. vm_compute. reflexivity.
  - apply (view_repeats_each "Position" 1 scenario1).
    exists scenario1_program. vm_compute. reflexivity.
Defined.

(** [view<Position, Position>] on scenario 1 of the specification: both
    entities, each with its position twice. *)
Example scenario1_view_twice :
  view "Position" 1 scenario1 = Ok [(1, [10; 10]); (2, [20; 20])] scenario1.
Proof. vm_compute. reflexivity. Qed.

Lemma new_entities_fresh_witness :
  free_entities_ scenario1 = [] ∧
  next_entity_ scenario1 + N.of_nat 2 < word ∧
  ∃ w', new_entities 2 scenario1 =
          Ok ((λ i, next_entity_ scenario1 + N.of_nat i) <$> seq 1 2) w' ∧
        next_entity_ w' = next_entity_ scenario1 + N.of_nat 2 ∧
        free_entities_ w' = [] ∧
        component_storages_ w' = component_storages_ scenario1.
Proof.
  split; [|split].
  - reflexivity.
  - reflexivity.
  - apply new_entities_fresh; reflexivity.
Defined.

Lemma storages_bounded_witness :
  reachable scenario1 ∧
  (size_of scenario1 "Position" ≤ max_capacity ∧
   (∀ s, storage_of scenario1 "Position" = Some s →
         vec_size (sparse_ s) ≤ max_capacity) ∧
   (∀ e, present scenario1 "Position" e = true → e < max_capacity)).
Proof.
  split.
  - exists scenario1_program. vm_compute. reflexivity.
  - apply storages_bounded. exists scenario1_program. vm_compute. reflexivity.
Defined.

Lemma component_ids_dense_stable_witness :
  reachable scenario1 ∧
  (next_component_id_ scenario1 =
     1 + N.of_nat (base.size (component_id_ scenario1)) ∧
   (∀ T id, component_id_ scenario1 !! T = Some id →
            1 ≤ id < next_component_id_ scenario1) ∧
   (∀ T1 T2 id, component_id_ scenario1 !! T1 = Some id →
                component_id_ scenario1 !! T2 = Some id → T1 = T2) ∧
   (∀ ops w' T id, run ops scenario1 = Some w' →
      component_id_ scenario1 !! T = Some id →
      component_id_ w' !! T = Some id)).
Proof.
  split.
  - exists scenario1_program. vm_compute. reflexivity.
  - apply component_ids_dense_stable. exists scenario1_program. vm_compute. reflexivity.
Defined.

Lemma const_accessors_witness :
  reachable scenario1 ∧
  ∃ w1, get_storage_const "Position" scenario1 =
          Ok (default sparse_set_new (storage_of scenario1 "Position")) w1 ∧
    registry_state w1 = registry_state scenario1 ∧
    (∀ v, component scenario1 "Position" 2 = Some v →
          get_component_const "Position" 2 scenario1 = Ok v w1).
Proof.
  split.
  - exists scenario1_program. vm_compute. reflexivity.
  - apply const_accessors. exists scenario1_program. vm_compute. reflexivity.
Defined.

Lemma has_all_answers_witness :
  reachable scenario1 ∧
  ∃ w', has_all ["Position"; "Velocity"] 2 scenario1 =
          Ok (all_present scenario1 ["Position"; "Velocity"] 2) w' ∧
    registry_state w' = registry_state scenario1 ∧
    (all_present scenario1 ["Position"; "Velocity"] 2 = true ↔
     ∀ T, T ∈ ["Position"; "Velocity"] → is_Some (component scenario1 T 2)).
Proof.
  split.
  - exists scenario1_program. vm_compute. reflexivity.
  - apply has_all_answers. exists scenario1_program. vm_compute. reflexivity.
Defined.

Lemma get_component_absent_undefined_witness :
  reachable scenario1 ∧
  component scenario1 "Position" 3 = None ∧
  (get_component "Position" 3 scenario1 = Undefined ∧
   get_component_const "Position" 3 scenario1 = Undefined).
Proof.
  split; [|split].
  - exists scenario1_program. vm_compute. reflexivity.
  - vm_compute. reflexivity.
  - apply get_component_absent_undefined.
    + exists scenario1_program. vm_compute. reflexivity.
    + vm_compute. reflexivity.
Defined.

Lemma add_component_small_index_witness :
  reachable scenario1 ∧
  1023 < 1024 ∧
  ∃ w', add_component "Position" 1023 5 scenario1 = Ok tt w' ∧
    ∀ s s', storage_of scenario1 "Position" = Some s →
            storage_of w' "Position" = Some s' →
            vec_size (sparse_ s') = vec_size (sparse_ s).
Proof.
  split; [|split].
  - exists scenario1_program. vm_compute. reflexivity.
  - reflexivity.
  - apply add_component_small_index.
    + exists scenario1_program. vm_compute. reflexivity.
    + reflexivity.
Defined.
